(** * WD-Bridge: the remote session and transfer engine

    A shallow embedding of [api.js] (the bridge module: path stack, remote
    primitives, retry supervisor, chunked upload and download) and of the
    recursive folder download of [index.js].

    The module-level variables of [api.js] ([pathStack], [tokens], [creds]),
    the local file system and the replies of the remote service form one
    [World]; every function of the source is a computation over it. *)

From Stdlib Require Import Strings.Byte.
From stdpp Require Import base numbers option list strings gmap sorting.

Open Scope string_scope.
Open Scope list_scope.
Open Scope N_scope.

(** ** Outcomes of a call *)

(** What JavaScript can throw in this code. [Error msg] is [new Error(msg)]
    and the failures of [fs]. *)
Inductive exn :=
| TypeError
| ReferenceError
| SyntaxError
| Error (msg : string).

(** How a call (or the promise it returns) ends.
    - [Ok a]: it returns [a] (the promise resolves with [a]);
    - [Throw e]: it throws [e] (the promise rejects), which a [try/catch]
      around the [await] can catch;
    - [Uncaught e]: [e] is thrown inside a callback of the transport or an
      event handler: it escapes into the event loop, the awaiting caller
      never sees it and its promise is never settled;
    - [Hang]: nothing ever calls [resolve]: the promise is never settled;
    - [OutOfFuel]: the model's recursion budget ran out (not a behaviour of
      the program). *)
Inductive outcome (A : Type) :=
| Ok (a : A)
| Throw (e : exn)
| Uncaught (e : exn)
| Hang
| OutOfFuel.
Arguments Ok {A} a.
Arguments Throw {A} e.
Arguments Uncaught {A} e.
Arguments Hang {A}.
Arguments OutOfFuel {A}.

(** ** The remote service, as the transport reports it *)

(** [response.statusCode] and [response.headers['location']]. *)
Record Response := {
  statusCode : N;
  location : option string;
}.

(** An entry of [JSON.parse(body).files]. *)
Record RawItem := {
  raw_name : string;
  raw_id : string;
  mimeType : string;
}.

(** [JSON.parse(body)], as far as the handlers read it: the properties
    [id_token], [files], [tag] and [size]; [None] is a property that is
    [undefined]. *)
Record Json := {
  j_id_token : option string;
  j_files : option (list RawItem);
  j_tag : option string;
  j_size : option N;
}.

(** The arguments [(error, response, body)] the [request] module passes to
    the callback of [request.get/post/put]. [body] is given by what
    [JSON.parse] makes of it, [None] when [JSON.parse] throws. A transport
    error comes with no response: [response] is [undefined]. *)
Record CbReply := {
  cb_error : option string;
  cb_response : option Response;
  cb_body : option Json;
}.

(** What a streamed request ([https.request] with a response handler, or
    [request.get(url)] with event handlers) delivers: no response at all
    (an ['error'] event on the request), or a response, its ['data'] chunks
    and then ['end'] ([None]) or an ['error'] event. *)
Inductive StreamReply :=
| ConnFailed (e : string)
| Responded (status : N) (chunks : list (list byte)) (fin : option string).

(** ** Requests and notifications, in the order they happen *)

(** [bytesWritten * 100 / totalSize] as JavaScript computes it in double
    precision: kept as the pair of operands; [Hundred] is the literal [100]. *)
Inductive Percentage :=
| Hundred
| Ratio (scaled : N) (total : option N).

Inductive Event :=
| ReqLogin (username password : option string)
| ReqLs (authToken : option string) (subPath : string)
| ReqMkdir (authToken : option string) (subPath folderName : string)
| ReqBatchDelete (authToken : option string) (entryID : string)
| ReqActivityStart (authToken : option string)
| ReqUploadInit (authToken : option string) (activityID : option string)
                (subPath pathToFile : string)
| ReqPut (fileUrl : option string) (offset : N) (done : bool) (content : list byte)
| ReqFileSize (authToken : option string) (fileID : string)
| ReqDownload (authToken : string) (fileID : string)
| FsMkdir (dir : string)
| FsAppend (file : string) (chunk : list byte)
| Progress (file : string) (p : Percentage).

(** ** The world *)

Record World := {
  (** [let pathStack = []] *)
  pathStack : list string;
  (** [tokens.auth]; [None] is [undefined] *)
  tokens_auth : option string;
  (** [creds.user] and [creds.pass] *)
  creds_user : option string;
  creds_pass : option string;
  (** The binding of the identifier [attempt], which [retryLimited] reads
      and [api.js] does not declare: [None] when no global of that name
      exists, and the read throws a ReferenceError. *)
  g_attempt : option N;
  (** The replies the transport will deliver, in order, to the callbacks of
      [request.get/post/put] and to the streamed requests. *)
  net_cb : list CbReply;
  net_stream : list StreamReply;
  (** The local file system: files with their content, and directories. *)
  localFiles : gmap string (list byte);
  localDirs : gset string;
  (** Everything sent and reported so far. *)
  trace : list Event;
}.

Definition set_pathStack (v : list string) (w : World) : World :=
  {| pathStack := v; tokens_auth := tokens_auth w; creds_user := creds_user w;
     creds_pass := creds_pass w; g_attempt := g_attempt w; net_cb := net_cb w;
     net_stream := net_stream w; localFiles := localFiles w;
     localDirs := localDirs w; trace := trace w |}.

Definition set_tokens_auth (v : option string) (w : World) : World :=
  {| pathStack := pathStack w; tokens_auth := v; creds_user := creds_user w;
     creds_pass := creds_pass w; g_attempt := g_attempt w; net_cb := net_cb w;
     net_stream := net_stream w; localFiles := localFiles w;
     localDirs := localDirs w; trace := trace w |}.

Definition set_creds (u p : option string) (w : World) : World :=
  {| pathStack := pathStack w; tokens_auth := tokens_auth w; creds_user := u;
     creds_pass := p; g_attempt := g_attempt w; net_cb := net_cb w;
     net_stream := net_stream w; localFiles := localFiles w;
     localDirs := localDirs w; trace := trace w |}.

Definition set_g_attempt (v : option N) (w : World) : World :=
  {| pathStack := pathStack w; tokens_auth := tokens_auth w; creds_user := creds_user w;
     creds_pass := creds_pass w; g_attempt := v; net_cb := net_cb w;
     net_stream := net_stream w; localFiles := localFiles w;
     localDirs := localDirs w; trace := trace w |}.

Definition set_net_cb (v : list CbReply) (w : World) : World :=
  {| pathStack := pathStack w; tokens_auth := tokens_auth w; creds_user := creds_user w;
     creds_pass := creds_pass w; g_attempt := g_attempt w; net_cb := v;
     net_stream := net_stream w; localFiles := localFiles w;
     localDirs := localDirs w; trace := trace w |}.

Definition set_net_stream (v : list StreamReply) (w : World) : World :=
  {| pathStack := pathStack w; tokens_auth := tokens_auth w; creds_user := creds_user w;
     creds_pass := creds_pass w; g_attempt := g_attempt w; net_cb := net_cb w;
     net_stream := v; localFiles := localFiles w;
     localDirs := localDirs w; trace := trace w |}.

Definition set_localFiles (v : gmap string (list byte)) (w : World) : World :=
  {| pathStack := pathStack w; tokens_auth := tokens_auth w; creds_user := creds_user w;
     creds_pass := creds_pass w; g_attempt := g_attempt w; net_cb := net_cb w;
     net_stream := net_stream w; localFiles := v;
     localDirs := localDirs w; trace := trace w |}.

Definition set_localDirs (v : gset string) (w : World) : World :=
  {| pathStack := pathStack w; tokens_auth := tokens_auth w; creds_user := creds_user w;
     creds_pass := creds_pass w; g_attempt := g_attempt w; net_cb := net_cb w;
     net_stream := net_stream w; localFiles := localFiles w;
     localDirs := v; trace := trace w |}.

Definition set_trace (v : list Event) (w : World) : World :=
  {| pathStack := pathStack w; tokens_auth := tokens_auth w; creds_user := creds_user w;
     creds_pass := creds_pass w; g_attempt := g_attempt w; net_cb := net_cb w;
     net_stream := net_stream w; localFiles := localFiles w;
     localDirs := localDirs w; trace := v |}.

(** The module as [require] leaves it: empty path stack, [tokens = {}],
    [creds = {}]; the rest is the environment the process runs in. *)
Definition initWorld (attempt : option N) (cb : list CbReply)
    (stream : list StreamReply) (files : gmap string (list byte)) : World :=
  {| pathStack := []; tokens_auth := None; creds_user := None; creds_pass := None;
     g_attempt := attempt; net_cb := cb; net_stream := stream;
     localFiles := files; localDirs := ∅; trace := [] |}.

(** ** Computations over the world *)

Definition M (A : Type) : Type := World -> outcome A * World.

Definition ret {A} (a : A) : M A := fun w => (Ok a, w).

Definition bind {A B} (m : M A) (k : A -> M B) : M B := fun w =>
  match m w with
  | (Ok a, w') => k a w'
  | (Throw e, w') => (Throw e, w')
  | (Uncaught e, w') => (Uncaught e, w')
  | (Hang, w') => (Hang, w')
  | (OutOfFuel, w') => (OutOfFuel, w')
  end.

Definition raise {A} (e : exn) : M A := fun w => (Throw e, w).
Definition uncaught {A} (e : exn) : M A := fun w => (Uncaught e, w).
Definition hang {A} : M A := fun w => (Hang, w).
Definition outOfFuel {A} : M A := fun w => (OutOfFuel, w).

Definition gets {A} (f : World -> A) : M A := fun w => (Ok (f w), w).
Definition modify (f : World -> World) : M unit := fun w => (Ok tt, f w).
Definition emit (e : Event) : M unit := modify (fun w => set_trace (trace w ++ [e]) w).

Declare Scope m_scope.
Delimit Scope m_scope with m.
Notation "x <- c1 ;; c2" := (bind c1 (fun x => c2))
  (at level 100, c1 at next level, right associativity) : m_scope.
Notation "c1 ;;; c2" := (bind c1 (fun _ => c2))
  (at level 100, right associativity) : m_scope.
Open Scope m_scope.

(** [try { body } catch (error) { handler(error) }]: only what [body] throws
    (or rejects with) reaches the handler. *)
Definition try_catch {A} (body : M A) (handler : exn -> M A) : M A := fun w =>
  match body w with
  | (Throw e, w') => handler e w'
  | r => r
  end.

(** The next reply to a [request.get/post/put] callback; with no reply left
    the callback is never called. *)
Definition next_cb : M CbReply := fun w =>
  match net_cb w with
  | [] => (Hang, w)
  | r :: rest => (Ok r, set_net_cb rest w)
  end.

Definition next_stream : M StreamReply := fun w =>
  match net_stream w with
  | [] => (Hang, w)
  | r :: rest => (Ok r, set_net_stream rest w)
  end.

(** ** Virtual path stack *)

Module PathStack.

(** [pathStack.splice(start, deleteCount)], for [start] within the array. *)
Definition splice {A} (l : list A) (start deleteCount : nat) : list A :=
  take start l ++ drop (start + deleteCount) l.

Definition enterDirectory (folderID : option string) : M unit :=
  match folderID with
  | None => ret tt
  | Some id => modify (fun w => set_pathStack (pathStack w ++ [id]) w)
  end.

Definition setPath (path : option string) : M unit :=
  modify (set_pathStack []) ;;;
  enterDirectory path.

Definition enterParentDirectory : M bool :=
  ps <- gets pathStack ;;
  if (0 <? length ps)%nat
  then modify (set_pathStack (splice ps (length ps - 1) 1)) ;;; ret true
  else ret false.

Definition getCurrentFolder : M (option string) :=
  ps <- gets pathStack ;;
  if (0 <? length ps)%nat then ret (ps !! (length ps - 1)%nat) else ret None.

(** [for (let i = 0; i < removeCount; i++) if (!enterParentDirectory()) break;] *)
Fixpoint removePathStackEntries (removeCount : nat) : M unit :=
  match removeCount with
  | O => ret tt
  | S n =>
      popped <- enterParentDirectory ;;
      if popped then removePathStackEntries n else ret tt
  end.

(** [pathStack.length > 0 ? pathStack[pathStack.length - 1] : 'root'], the
    folder the retryable operations work in. *)
Definition currentPath : M string :=
  ps <- gets pathStack ;;
  if (0 <? length ps)%nat
  then ret (default "undefined" (ps !! (length ps - 1)%nat))
  else ret "root".

End PathStack.


(** ** Remote operation primitives *)

(** The record a primitive resolves with:
    [{ success, error, session, result }]. [success] is [None] when the
    object has no such property (the 401 records of [getFileSize] and [dwl]
    spell it [sucess]); [result] is [None] when absent or [undefined]. *)
Record PrimResult (R : Type) := {
  success : option bool;
  error : option string;
  session : bool;
  result : option R;
}.
Arguments success {R} _.
Arguments error {R} _.
Arguments session {R} _.
Arguments result {R} _.

(** The object [multipartMixed] resolves with:
    [{ success, error, session, status, content }]. *)
Record MixedResult := {
  m_success : bool;
  m_error : option string;
  m_session : bool;
  m_status : option N;
  m_content : list byte;
}.

(** [{ name, id, isDir }] *)
Record RemoteEntry := {
  name : string;
  id : string;
  isDir : bool;
}.

(** A value used as a condition: [undefined] is falsy. *)
Definition truthy (b : option bool) : bool := default false b.

(** A value inside a template literal or after [+] on a string. *)
Definition js_string (v : option string) : string := default "undefined" v.

Module Primitives.

(** The last element of [s.split('/')]. *)
Fixpoint last_segment_from (s acc : string) : string :=
  match s with
  | EmptyString => acc
  | String c rest =>
      if Ascii.eqb c (Ascii.ascii_of_nat 47) then last_segment_from rest ""
      else last_segment_from rest (acc +:+ String c "")
  end.
Definition last_segment (s : string) : string := last_segment_from s "".

Definition login (username password : option string) : M bool :=
  emit (ReqLogin username password) ;;;
  r <- next_cb ;;
  match cb_response r with
  | None => uncaught TypeError
  | Some resp =>
      if statusCode resp =? 401 then ret false
      else match cb_error r with
      | Some _ => ret false
      | None =>
          match cb_body r with
          | None => uncaught SyntaxError
          | Some obj =>
              modify (set_tokens_auth (Some ("Bearer " +:+ js_string (j_id_token obj)))) ;;;
              ret true
          end
      end
  end.

Definition ls (authToken : option string) (subPath : string)
    : M (PrimResult (list RemoteEntry)) :=
  emit (ReqLs authToken subPath) ;;;
  r <- next_cb ;;
  match cb_response r with
  | None => uncaught TypeError
  | Some resp =>
      if statusCode resp =? 401
      then ret {| success := Some false; error := None; session := false; result := None |}
      else match cb_error r with
      | Some e =>
          ret {| success := Some false; error := Some e; session := true; result := None |}
      | None =>
          match cb_body r with
          | None => uncaught SyntaxError
          | Some obj =>
              match j_files obj with
              | None =>
                  ret {| success := Some true; error := None; session := true;
                         result := Some [] |}
              | Some items =>
                  let parsedResult :=
                    map (fun item =>
                           {| name := raw_name item;
                              id := raw_id item;
                              isDir := String.eqb (mimeType item) "application/x.wd.dir" |})
                        items in
                  ret {| success := Some true; error := None; session := true;
                         result := Some parsedResult |}
              end
          end
      end
  end.

Definition mkdir (authToken : option string) (subPath folderName : string)
    : M (PrimResult string) :=
  emit (ReqMkdir authToken subPath folderName) ;;;
  r <- next_cb ;;
  match cb_response r with
  | None => uncaught TypeError
  | Some resp =>
      if statusCode resp =? 401
      then ret {| success := Some false; error := None; session := false; result := None |}
      else match cb_error r with
      | Some e =>
          ret {| success := Some false; error := Some e; session := true; result := None |}
      | None =>
          match location resp with
          | None => uncaught TypeError
          | Some loc =>
              ret {| success := Some true; error := None; session := true;
                     result := Some (last_segment loc) |}
          end
      end
  end.

(** [multipartMixed(mpData, auth)]; the multipart body [mpData] is given by
    the entry whose DELETE request it carries. A request that gets no
    response emits ['error'] on the request object, for which no listener
    is registered. *)
Definition multipartMixed (entryID : string) (auth : option string) : M MixedResult :=
  emit (ReqBatchDelete auth entryID) ;;;
  r <- next_stream ;;
  match r with
  | ConnFailed e => uncaught (Error e)
  | Responded status chunks fin =>
      if status =? 401
      then ret {| m_success := false; m_error := None; m_session := false;
                  m_status := None; m_content := [] |}
      else match fin with
      | Some e =>
          ret {| m_success := false; m_error := Some e; m_session := true;
                 m_status := None; m_content := [] |}
      | None =>
          ret {| m_success := true; m_error := None; m_session := true;
                 m_status := Some status; m_content := concat chunks |}
      end
  end.

Definition rm (authToken : option string) (entryID : string) : M (PrimResult bool) :=
  res <- multipartMixed entryID authToken ;;
  if negb (m_success res)
  then ret {| success := Some (m_success res); error := m_error res;
              session := m_session res; result := None |}
  else ret {| success := Some (bool_decide (m_status res = Some 200)); error := None;
              session := true; result := Some true |}.

Definition getFileSize (authToken : option string) (fileID : string) : M (PrimResult N) :=
  emit (ReqFileSize authToken fileID) ;;;
  r <- next_cb ;;
  match cb_response r with
  | None => uncaught TypeError
  | Some resp =>
      if statusCode resp =? 401
      then ret {| success := None; error := None; session := false; result := None |}
      else match cb_error r with
      | Some e =>
          ret {| success := Some false; error := Some e; session := true; result := None |}
      | None =>
          match cb_body r with
          | None => uncaught SyntaxError
          | Some obj =>
              ret {| success := Some true; error := None; session := true;
                     result := j_size obj |}
          end
      end
  end.

End Primitives.

(** ** Session authenticator *)

Definition authenticate (username password : option string) : M bool :=
  modify (set_creds username password) ;;;
  loginResult <- Primitives.login username password ;;
  ret loginResult.

(** ** Retry and re-authentication supervisor *)

(** What a retryable operation resolves with: the object
    [{ success, data }] ([data] absent or [undefined] is [None]), or, where
    the source passes on what a public operation returned, that value
    itself. *)
Inductive OpResult (D : Type) :=
| Rec (op_success : bool) (data : option D)
| Value (v : option D).
Arguments Rec {D} op_success data.
Arguments Value {D} v.

(** [result.success]: a property of the object; [undefined] on a value that
    is not such an object; a TypeError on [undefined]. *)
Definition read_success {D} (r : OpResult D) : M bool :=
  match r with
  | Rec s _ => ret s
  | Value (Some _) => ret false
  | Value None => raise TypeError
  end.

(** [result.data] *)
Definition read_data {D} (r : OpResult D) : option D :=
  match r with
  | Rec _ d => d
  | Value _ => None
  end.

Module Supervisor.

Section RetryLimited.
Context {D : Type}.
Variable tryLimit : nat.
Variable actionName : string.
Variable abstractedFunction : M (OpResult D).

(** The closure [callAbstracted]. Its variable [tryCounter] is passed
    along and returned next to the object it resolves with,
    [{ success }] or [{ success, data }]. *)
Fixpoint callAbstracted (fuel : nat) (tryCounter : nat)
    : M (bool * option D * nat) :=
  match fuel with
  | O => outOfFuel
  | S fuel' =>
      if (tryLimit <? tryCounter)%nat then ret (false, None, tryCounter)
      else
        let tryCounter := S tryCounter in
        attempt <- gets g_attempt ;;
        match attempt with
        | None => raise ReferenceError
        | Some _ =>
            result <- abstractedFunction ;;
            ok <- read_success result ;;
            if negb ok then callAbstracted fuel' tryCounter
            else ret (true, read_data result, tryCounter)
        end
  end.

(** [retryLimited(tryLimit, actionName, abstractedFunction, afArgs)], the
    function given together with its arguments. [callAbstracted] calls
    itself at most [tryLimit + 1] times, so the budget below is never used
    up. *)
Definition retryLimited : M (option D) :=
  recursiveResult <- callAbstracted (tryLimit + 2) 0 ;;
  let '(ok, data, _) := recursiveResult in
  if ok then ret data
  else raise (Error ("tried to " +:+ actionName +:+ " 10 times and failed")).
End RetryLimited.

(** [authRetry(func, args)]: [func] with its arguments is the computation
    to run after the login, whose result is not looked at. *)
Definition authRetry {A} (func : M A) : M A :=
  user <- gets creds_user ;;
  pass <- gets creds_pass ;;
  authenticate user pass ;;;
  func.

End Supervisor.

(** ** Chunked transfer engine *)

(** An exception that leaves an [async] function nobody awaits, or a
    callback of the transport, is not seen by any caller. *)
Definition detach {A} (m : M A) : M A := fun w =>
  match m w with
  | (Throw e, w') => (Uncaught e, w')
  | r => r
  end.

(** What [getFileContent] yields: [{ buffer, bytesRead, currentOffset, isDone }]. *)
Record Chunk := {
  buffer : list byte;
  bytesRead : N;
  currentOffset : N;
  isDone : bool;
}.

(** The [data] argument of [uploadManual]; [url] is given by the
    [Location] header the upload URL is built from. *)
Record UploadData := {
  authorization : option string;
  xActivityTag : option string;
  url : option string;
}.

Module Transfer.

Definition bufferSize : N := 20480.

(** [fs.readSync(fd, buffer, 0, bufferSize, position)] on a regular file:
    the bytes of the file from [position], at most [bufferSize] of them,
    written over the start of [buffer]. *)
Definition readSync (file buf : list byte) (position : N) : list byte * N :=
  let bytes := take (N.to_nat bufferSize) (drop (N.to_nat position) file) in
  (bytes ++ drop (length bytes) buf, N.of_nat (length bytes)).

(** The [while (true)] loop of the generator [getFileContent], on the
    content of the file ([totalSize] is its length, [buf] the buffer as the
    previous read left it): the objects it yields, in order. [None] when
    [fuel] iterations were not enough. *)
Fixpoint getFileContent_loop (fuel : nat) (file buf : list byte) (currentOffset : N)
    : option (list Chunk) :=
  match fuel with
  | O => None
  | S fuel' =>
      let totalSize := N.of_nat (length file) in
      if totalSize <=? currentOffset then Some []
      else
        let '(buf, bytesRead) :=
          readSync file buf
            (if totalSize <? currentOffset then currentOffset - totalSize
             else currentOffset) in
        let isDone := negb (bytesRead =? bufferSize) in
        let item := {| buffer := buf; bytesRead := bytesRead;
                       currentOffset := currentOffset; isDone := isDone |} in
        if isDone then Some [item]
        else cons item <$> getFileContent_loop fuel' file buf (currentOffset + bytesRead)
  end.

(** [getFileContent(filePath)], given the content of the file at
    [filePath]: everything the generator yields when it is run to its end.
    The buffer starts zero-filled ([Buffer.alloc]); the loop needs at most
    one iteration per byte and one more to see the end of the file. *)
Definition getFileContent (file : list byte) : list Chunk :=
  default [] (getFileContent_loop (S (length file)) file
                (replicate (N.to_nat bufferSize) x00) 0).

(** [fs.statSync(p).size] for a path that exists, a file or a directory;
    [None] for a path that does not ([fs.existsSync(p)] is [false]). What
    [stat] reports for a directory depends on the file system: it is taken
    to be one block, as on ext4. *)
Definition dirSize : N := 4096.

Definition stat_size (w : World) (p : string) : option N :=
  match localFiles w !! p with
  | Some content => Some (N.of_nat (length content))
  | None => if bool_decide (p ∈ localDirs w) then Some dirSize else None
  end.

(** The promise [uploadBytes()] of [uploadManual]: one chunk PUT. On an
    error the handler calls [reportDone], a name that is not in scope in
    [uploadManual]. *)
Definition uploadBytes (data : UploadData) (c : Chunk) : M (PrimResult bool) :=
  emit (ReqPut (url data) (currentOffset c) (isDone c)
               (take (N.to_nat (bytesRead c)) (buffer c))) ;;;
  r <- next_cb ;;
  match cb_response r with
  | None => uncaught TypeError
  | Some resp =>
      if statusCode resp =? 401
      then ret {| success := Some false; error := None; session := false; result := None |}
      else match cb_error r with
      | Some _ => uncaught ReferenceError
      | None =>
          ret {| success := Some true; error := None; session := true; result := None |}
      end
  end.

Section Upload.
(** [R] is what [doneCallback] makes of the final result (in [_uploadFile]:
    what it resolves the promise with); the functions below return the
    value of its first call, [None] if it is never called. *)
Context {R : Type}.
Variable data : UploadData.
Variable progressCallback : N -> M unit.
Variable doneCallback : PrimResult bool -> M R.

(** The [for ... of] loop of [uploadManual] over what the generator
    yields. *)
Fixpoint uploadManual_loop (chunks : list Chunk) : M (option R) :=
  match chunks with
  | [] => ret None
  | c :: rest =>
      progressCallback (currentOffset c) ;;;
      uploadResult <- uploadBytes data c ;;
      if negb (truthy (success uploadResult)) then
        r <- doneCallback uploadResult ;;
        ret (Some r)
      else if isDone c then
        r <- doneCallback {| success := Some true; error := None; session := true;
                             result := Some true |} ;;
        uploadManual_loop rest ;;;
        ret (Some r)
      else uploadManual_loop rest
  end.

(** [uploadManual] is [async] and nobody awaits it. Without the file
    [fs.statSync] throws in the generator; a directory is opened, and the
    first [fs.readSync] on it throws. *)
Definition uploadManual (filePath : string) : M (option R) :=
  file <- gets (fun w => localFiles w !! filePath) ;;
  match file with
  | None =>
      isDirectory <- gets (fun w => bool_decide (filePath ∈ localDirs w)) ;;
      if (isDirectory : bool) then uncaught (Error "EISDIR")
      else uncaught (Error "ENOENT")
  | Some content => detach (uploadManual_loop (getFileContent content))
  end.
End Upload.

Section Upl.
Context {R : Type}.
Variable authToken : option string.
Variable subPath pathToFile : string.
Variable reportCompleted : N -> M unit.
Variable reportDone : PrimResult bool -> M R.

(** The closure [startUpload] of [upl]. *)
Definition startUpload (activityID : option string) : M (option R) :=
  emit (ReqUploadInit authToken activityID subPath pathToFile) ;;;
  r <- next_cb ;;
  match cb_response r with
  | None => uncaught TypeError
  | Some resp =>
      if statusCode resp =? 401 then
        v <- detach (reportDone {| success := Some false; error := None;
                                   session := false; result := None |}) ;;
        ret (Some v)
      else match cb_error r with
      | Some e =>
          v <- detach (reportDone {| success := Some false; error := Some e;
                                     session := true; result := None |}) ;;
          ret (Some v)
      | None =>
          uploadManual
            {| authorization := authToken; xActivityTag := activityID;
               url := location resp |}
            reportCompleted reportDone pathToFile
      end
  end.

(** The closure [startActivity] of [upl]. On a 401 the handler calls
    [resolve], a name that is not in scope in [upl]. *)
Definition startActivity : M (option R) :=
  emit (ReqActivityStart authToken) ;;;
  r <- next_cb ;;
  match cb_response r with
  | None => uncaught TypeError
  | Some resp =>
      if statusCode resp =? 401 then uncaught ReferenceError
      else match cb_error r with
      | Some e =>
          v <- detach (reportDone {| success := Some false; error := Some e;
                                     session := true; result := None |}) ;;
          ret (Some v)
      | None =>
          match cb_body r with
          | None => uncaught SyntaxError
          | Some obj => startUpload (j_tag obj)
          end
      end
  end.

Definition upl : M (option R) := startActivity.
End Upl.

(** [fs.appendFileSync(localPath, chunk)] *)
Definition appendFileSync (localPath : string) (chunk : list byte) : M unit :=
  modify (fun w =>
    set_localFiles (<[localPath := default [] (localFiles w !! localPath) ++ chunk]>
                      (localFiles w)) w) ;;;
  emit (FsAppend localPath chunk).

Section Dwl.
Variable localPath : string.
(** called with [{ offset, total }] *)
Variable progressCallback : N -> option N -> M unit.
Variable totalSize : option N.

(** The ['data'] handler, once per chunk received. *)
Fixpoint on_data (chunks : list (list byte)) (currentOffset : N) : M unit :=
  match chunks with
  | [] => ret tt
  | chunk :: rest =>
      appendFileSync localPath chunk ;;;
      progressCallback currentOffset totalSize ;;;
      on_data rest (currentOffset + N.of_nat (length chunk))
  end.
End Dwl.

(** What is left of a stream when [dwl] has resolved in its ['response']
    handler: the chunks and the end of the stream, which arrive after the
    caller has gone on. *)
Record Late := {
  late_total : option N;
  late_chunks : list (list byte);
  late_fin : option string;
}.

(** The events of [dwl]'s request that come after a 401 response: the
    ['data'] handler still appends every chunk; ['end'] resolves a second
    time, to no effect; the ['error'] handler reads [response], which is
    not in its scope. *)
Definition late_events (localPath : string)
    (progressCallback : N -> option N -> M unit) (late : option Late) : M unit :=
  match late with
  | None => ret tt
  | Some l =>
      detach (on_data localPath progressCallback (late_total l) (late_chunks l) 0) ;;;
      match late_fin l with
      | Some _ => uncaught ReferenceError
      | None => ret tt
      end
  end.

(** [dwl]. [authToken.substring(7)] comes first and throws on [undefined].
    A response with a status other than 401 resolves on ['end'], when every
    chunk has been appended. A 401 resolves in the ['response'] handler,
    before any chunk: the caller goes on at once, and what the stream still
    delivers is returned next to the result, for the caller to place (see
    [late_events]). The ['error'] handler reads [response], which is not in
    its scope. *)
Definition dwl (authToken : option string) (fileID localPath : string)
    (progressCallback : N -> option N -> M unit) : M (PrimResult bool * option Late) :=
  match authToken with
  | None => uncaught TypeError
  | Some token =>
      sizeData <- Primitives.getFileSize authToken fileID ;;
      if negb (truthy (success sizeData))
      then ret ({| success := success sizeData; error := error sizeData;
                   session := session sizeData; result := None |}, None)
      else
        let totalSize := result sizeData in
        emit (ReqDownload (String.substring 7 (String.length token - 7) token) fileID) ;;;
        r <- next_stream ;;
        match r with
        | ConnFailed _ => uncaught ReferenceError
        | Responded status chunks fin =>
            if status =? 401
            then ret ({| success := None; error := None; session := false;
                         result := None |},
                      Some {| late_total := totalSize; late_chunks := chunks;
                              late_fin := fin |})
            else
              detach (on_data localPath progressCallback totalSize chunks 0) ;;;
              match fin with
              | Some _ => uncaught ReferenceError
              | None =>
                  ret ({| success := Some true; error := None; session := true;
                          result := Some true |}, None)
              end
        end
  end.

End Transfer.

(** ** The retryable operations and their public wrappers *)

(** The retryable operations call themselves again after a
    re-authentication, as often as the service answers 401; [fuel] bounds
    the depth of these replays in the model. *)

Module Api.
Import Supervisor.

Fixpoint _listFiles (fuel : nat) : M (OpResult (list RemoteEntry)) :=
  match fuel with
  | O => outOfFuel
  | S fuel' =>
      currentPath <- PathStack.currentPath ;;
      auth <- gets tokens_auth ;;
      res <- Primitives.ls auth currentPath ;;
      if truthy (success res) then ret (Rec true (result res))
      else if bool_decide (is_Some (error res)) then ret (Rec false None)
      else authRetry (_listFiles fuel')
  end.

Definition listFiles (fuel : nat) : M (option (list RemoteEntry)) :=
  try_catch (retryLimited 10 "list files" (_listFiles fuel)) raise.

Fixpoint _createDirectory (fuel : nat) (dirName : string) : M (OpResult string) :=
  match fuel with
  | O => outOfFuel
  | S fuel' =>
      currentPath <- PathStack.currentPath ;;
      auth <- gets tokens_auth ;;
      res <- Primitives.mkdir auth currentPath dirName ;;
      if truthy (success res) then ret (Rec true (result res))
      else if bool_decide (is_Some (error res)) then ret (Rec false None)
      else authRetry (_createDirectory fuel' dirName)
  end.

Definition createDirectory (fuel : nat) (dirName : string) : M (option string) :=
  try_catch (retryLimited 10 "create new directory" (_createDirectory fuel dirName)) raise.

Fixpoint _removeFile (fuel : nat) (fileID : string) : M (OpResult bool) :=
  match fuel with
  | O => outOfFuel
  | S fuel' =>
      auth <- gets tokens_auth ;;
      res <- Primitives.rm auth fileID ;;
      if truthy (success res) then ret (Rec true (result res))
      else if bool_decide (is_Some (error res)) then ret (Rec false None)
      else authRetry (_removeFile fuel' fileID)
  end.

Definition removeFile (fuel : nat) (fileID : string) : M (option bool) :=
  try_catch (retryLimited 10 "remove file" (_removeFile fuel fileID)) raise.

Section UploadFile.
Variable filePath : string.
Variable progressCallback : Percentage -> M unit.
(** The public [uploadFile], which [_uploadFile] calls again after a
    re-authentication. *)
Variable uploadFile : M (option bool).

(** [fs.existsSync(filePath)] and [fs.statSync(filePath).size] are read off
    [stat_size]: a directory exists, and the upload is started for it. *)
Definition _uploadFile : M (OpResult bool) :=
  currentPath <- PathStack.currentPath ;;
  size <- gets (fun w => Transfer.stat_size w filePath) ;;
  match size with
  | None => ret (Rec false None)
  | Some totalSize =>
      auth <- gets tokens_auth ;;
      settled <-
        Transfer.upl auth currentPath filePath
          (fun bytesWritten =>
             if totalSize =? 0 then progressCallback Hundred
             else progressCallback (Ratio (bytesWritten * 100) (Some totalSize)))
          (fun finalResult =>
             if truthy (success finalResult) then ret (Rec true (result finalResult))
             else if bool_decide (is_Some (error finalResult)) then ret (Rec false None)
             else
               res <- authRetry uploadFile ;;
               ret (Value res)) ;;
      match settled with
      | None => hang
      | Some v => ret v
      end
  end.
End UploadFile.

Fixpoint uploadFile (fuel : nat) (filePath : string)
    (progressCallback : Percentage -> M unit) : M (option bool) :=
  match fuel with
  | O => outOfFuel
  | S fuel' =>
      try_catch
        (retryLimited 10 "upload file"
           (_uploadFile filePath progressCallback
              (uploadFile fuel' filePath progressCallback)))
        raise
  end.

(** After a 401 of the content request the login of [authRetry] is sent
    before anything more of the refused stream is handled; the model
    delivers the rest of that stream when the login has been answered,
    before the replay starts. *)
Fixpoint _downloadFile (fuel : nat) (fileID localFilePath : string)
    (progressCallback : Percentage -> M unit) : M (OpResult bool) :=
  match fuel with
  | O => outOfFuel
  | S fuel' =>
      let reportProgress := fun offset total =>
        if bool_decide (total = Some 0) then progressCallback Hundred
        else progressCallback (Ratio (offset * 100) total) in
      auth <- gets tokens_auth ;;
      settled <- Transfer.dwl auth fileID localFilePath reportProgress ;;
      let res := settled.1 in
      if truthy (success res) then ret (Rec true (result res))
      else if bool_decide (is_Some (error res)) then ret (Rec false None)
      else authRetry
             (Transfer.late_events localFilePath reportProgress settled.2 ;;;
              _downloadFile fuel' fileID localFilePath progressCallback)
  end.

Definition downloadFile (fuel : nat) (fileID localFilePath : string)
    (progressCallback : Percentage -> M unit) : M (option bool) :=
  try_catch
    (retryLimited 10 "download file"
       (_downloadFile fuel fileID localFilePath progressCallback))
    raise.

End Api.

(** ** Recursive tree transfer ([index.js]) *)

Module Shell.

(** [s.split('/')] *)
Fixpoint split_from (s acc : string) : list string :=
  match s with
  | EmptyString => [acc]
  | String c rest =>
      if Ascii.eqb c (Ascii.ascii_of_nat 47) then acc :: split_from rest ""
      else split_from rest (acc +:+ String c "")
  end.

(** One segment of a path in [path.normalize]: empty segments and ['.']
    are dropped, ['..'] takes the segment before it away, or stays when
    there is none and the path is relative. [kept] holds the segments kept
    so far, the last one first. *)
Definition normalize_segment (allowAboveRoot : bool) (kept : list string)
    (segment : string) : list string :=
  if String.eqb segment "" || String.eqb segment "." then kept
  else if String.eqb segment ".." then
    match kept with
    | last :: before =>
        if String.eqb last ".." then (if allowAboveRoot then ".." :: kept else kept)
        else before
    | [] => if allowAboveRoot then [".."] else []
    end
  else segment :: kept.

Fixpoint join_segments (segments : list string) : string :=
  match segments with
  | [] => ""
  | [segment] => segment
  | segment :: rest => segment +:+ "/" +:+ join_segments rest
  end.

Definition starts_with_slash (s : string) : bool :=
  match s with
  | String c _ => Ascii.eqb c (Ascii.ascii_of_nat 47)
  | EmptyString => false
  end.

Fixpoint ends_with_slash (s : string) : bool :=
  match s with
  | EmptyString => false
  | String c EmptyString => Ascii.eqb c (Ascii.ascii_of_nat 47)
  | String _ rest => ends_with_slash rest
  end.

(** [path.normalize(p)] of Node's POSIX [path] module. *)
Definition path_normalize (p : string) : string :=
  if String.eqb p "" then "."
  else
    let isAbsolute := starts_with_slash p in
    let trailingSeparator := ends_with_slash p in
    let kept := fold_left (normalize_segment (negb isAbsolute)) (split_from p "") [] in
    let normalized := join_segments (rev kept) in
    if String.eqb normalized "" then
      (if isAbsolute then "/" else if trailingSeparator then "./" else ".")
    else
      let normalized :=
        if trailingSeparator then normalized +:+ "/" else normalized in
      if isAbsolute then "/" +:+ normalized else normalized.

(** [path.join(a, b)]: the arguments that are not empty, joined by ['/']
    and normalized. *)
Definition path_join (a b : string) : string :=
  if String.eqb a "" then (if String.eqb b "" then "." else path_normalize b)
  else if String.eqb b "" then path_normalize a
  else path_normalize (a +:+ "/" +:+ b).

(** [fs.mkdirSync(dir)] throws when [dir] exists. *)
Definition mkdirSync (dir : string) : M unit :=
  present <- gets (fun w => bool_decide (dir ∈ localDirs w)) ;;
  if (present : bool) then raise (Error "EEXIST")
  else
    modify (fun w => set_localDirs ({[dir]} ∪ localDirs w) w) ;;;
    emit (FsMkdir dir).

(** [for (const x of l) body(x)] *)
Fixpoint for_of {A} (l : list A) (body : A -> M unit) : M unit :=
  match l with
  | [] => ret tt
  | x :: rest => body x ;;; for_of rest body
  end.

(** The closure [downloadFolder] of [recursiveDownloadFolders]. *)
Fixpoint downloadFolder (fuel : nat) (remoteFolderID : option string)
    (localPath : string) : M unit :=
  match fuel with
  | O => outOfFuel
  | S fuel' =>
      PathStack.enterDirectory remoteFolderID ;;;
      listing <- Api.listFiles fuel' ;;
      match listing with
      | None => raise TypeError
      | Some entries =>
          let folderList := List.filter (fun entry => isDir entry) entries in
          let fileList := List.filter (fun entry => negb (isDir entry)) entries in
          for_of folderList (fun folder =>
            mkdirSync (path_join localPath (name folder))) ;;;
          for_of fileList (fun file =>
            let filePath := path_join localPath (name file) in
            try_catch
              (Api.downloadFile fuel' (id file) filePath
                 (fun progress => emit (Progress (name file) progress)) ;;;
               ret tt)
              (fun _ => ret tt)) ;;;
          for_of folderList (fun folder =>
            downloadFolder fuel' (Some (id folder)) (path_join localPath (name folder)))
      end
  end.

Definition recursiveDownloadFolders (fuel : nat) (srcFolderID basepath : string) : M unit :=
  currentFolderID <- PathStack.getCurrentFolder ;;
  PathStack.enterDirectory (Some srcFolderID) ;;;
  mkdirSync basepath ;;;
  downloadFolder fuel (Some srcFolderID) basepath ;;;
  PathStack.enterDirectory currentFolderID.

(** [seekAndEnter(folderName)]: the first entry of the listing that has the
    name and is a directory is entered. [undefined.find] throws when the
    listing is [undefined]. The shell's cache of the prompt ([cwdCache]) is
    not part of the model. *)
Definition seekAndEnter (fuel : nat) (folderName : string) : M bool :=
  lsResult <- Api.listFiles fuel ;;
  match lsResult with
  | None => raise TypeError
  | Some items =>
      match List.find (fun item => String.eqb (name item) folderName && isDir item)
                      items with
      | None => ret false
      | Some targetDir => PathStack.enterDirectory (Some (id targetDir)) ;;; ret true
      end
  end.

Section UploadFolders.
(** The local tree as the upload reads it: the entries of a directory
    ([fs.readdirSync]), whether a path is a directory
    ([fs.statSync(p).isDirectory()]), and [path.basename]. *)
Variable readdirSync : string -> list string.
Variable isDirectory : string -> bool.
Variable basename : string -> string.

(** The loop that creates the folders on the remote and collects their
    ids in [idList]. *)
Fixpoint createFolders (fuel : nat) (folderList : list string)
    : M (list (option string)) :=
  match folderList with
  | [] => ret []
  | folder :: rest =>
      directoryID <- Api.createDirectory fuel folder ;;
      idList <- createFolders fuel rest ;;
      ret (directoryID :: idList)
  end.

(** The closure [uploadFolder] of [recursiveUploadFolders]. *)
Fixpoint uploadFolder (fuel : nat) (local : string) (parent : option string) : M unit :=
  match fuel with
  | O => outOfFuel
  | S fuel' =>
      PathStack.enterDirectory parent ;;;
      let entries := readdirSync local in
      let folderList :=
        List.filter (fun entry => isDirectory (local +:+ "/" +:+ entry)) entries in
      let fileList :=
        List.filter (fun entry => negb (isDirectory (local +:+ "/" +:+ entry))) entries in
      idList <- createFolders fuel' folderList ;;
      for_of fileList (fun file =>
        try_catch
          (Api.uploadFile fuel' (path_join local file)
             (fun progress => emit (Progress file progress)) ;;;
           ret tt)
          (fun _ => ret tt)) ;;;
      for_of (zip folderList idList) (fun child =>
        uploadFolder fuel' (path_join local child.1) child.2 ;;;
        PathStack.enterParentDirectory ;;;
        ret tt)
  end.

Definition recursiveUploadFolders (fuel : nat) (srcFolderPath : string) : M unit :=
  currentFolderID <- PathStack.getCurrentFolder ;;
  mainFolderID <- Api.createDirectory fuel (basename srcFolderPath) ;;
  uploadFolder fuel srcFolderPath mainFolderID ;;;
  PathStack.enterDirectory currentFolderID.
End UploadFolders.

End Shell.

(** * Vocabulary of the properties *)

(** A transport error: [error] is set and there is no response. *)
Definition transport_error (e : string) : CbReply :=
  {| cb_error := Some e; cb_response := None; cb_body := None |}.

(** The replies used as concrete inputs below. *)
Definition unauthorized : CbReply :=
  {| cb_error := None;
     cb_response := Some {| statusCode := 401; location := None |};
     cb_body := None |}.

Definition logged_in (token : string) : CbReply :=
  {| cb_error := None;
     cb_response := Some {| statusCode := 200; location := None |};
     cb_body := Some {| j_id_token := Some token; j_files := None;
                        j_tag := None; j_size := None |} |}.

(** A reply that is a failure but no session expiry: an error next to a
    response with status 500. *)
Definition server_error : CbReply :=
  {| cb_error := Some "Internal Server Error";
     cb_response := Some {| statusCode := 500; location := None |};
     cb_body := None |}.

(** The world in which [n] list requests have been made and failed, out of
    twelve failures the service has in store. *)
Definition after_failed_lists (n : nat) : World :=
  set_trace (replicate n (ReqLs None "root"))
    (initWorld (Some 0) (replicate (12 - n) server_error) [] ∅).

(** Runs the plumbing of [M] on the goal. *)
Ltac run_m :=
  unfold bind, gets, modify, emit, next_cb, next_stream, ret, raise, uncaught, hang;
  cbn.

(** A successful listing. *)
Definition listing (items : list RawItem) : CbReply :=
  {| cb_error := None;
     cb_response := Some {| statusCode := 200; location := None |};
     cb_body := Some {| j_id_token := None; j_files := Some items;
                        j_tag := None; j_size := None |} |}.

Definition to_entries (items : list RawItem) : list RemoteEntry :=
  map (fun item => {| name := raw_name item; id := raw_id item;
                      isDir := String.eqb (mimeType item) "application/x.wd.dir" |})
      items.

(** [k] list requests answered with 401, each followed by a login that
    succeeds and hands out [token]. *)
Definition expired_sessions (k : nat) (token : string) : list CbReply :=
  concat (replicate k [unauthorized; logged_in token]).

(** What a listing sends while its session expires [k] times: each round
    is a list request for the working folder with the token of the moment,
    then one login with the cached credentials; the last request succeeds. *)
Fixpoint replay_trace (k : nat) (auth : option string) (folder : string)
    (user pass : option string) (token : string) : list Event :=
  match k with
  | O => [ReqLs auth folder]
  | S k' =>
      ReqLs auth folder :: ReqLogin user pass
      :: replay_trace k' (Some ("Bearer " +:+ token)) folder user pass token
  end.

Definition working_folder (w : World) : string := default "root" (last (pathStack w)).

(** What [getFileContent] yields from offset [off] on for a file of [size]
    bytes: nothing at or past the end; full blocks with [isDone = false]
    while a whole block is left; a short last block with [isDone = true]. *)
Inductive yields (size : N) : N -> list Chunk -> Prop :=
| yields_end off :
    size <= off -> yields size off []
| yields_last off c :
    off < size -> size < off + Transfer.bufferSize ->
    currentOffset c = off -> bytesRead c = size - off -> isDone c = true ->
    yields size off [c]
| yields_block off c rest :
    off + Transfer.bufferSize <= size ->
    currentOffset c = off -> bytesRead c = Transfer.bufferSize -> isDone c = false ->
    yields size (off + Transfer.bufferSize) rest ->
    yields size off (c :: rest).

Arguments Transfer.getFileContent : simpl never.

Definition activity_started (tag : string) : CbReply :=
  {| cb_error := None;
     cb_response := Some {| statusCode := 200; location := None |};
     cb_body := Some {| j_id_token := None; j_files := None;
                        j_tag := Some tag; j_size := None |} |}.

Definition upload_opened (loc : string) : CbReply :=
  {| cb_error := None;
     cb_response := Some {| statusCode := 201; location := Some loc |};
     cb_body := None |}.

Definition chunk_stored : CbReply :=
  {| cb_error := None;
     cb_response := Some {| statusCode := 200; location := None |};
     cb_body := None |}.

(** The PUT request of a chunk. *)
Definition put_of (data : UploadData) (c : Chunk) : Event :=
  ReqPut (url data) (currentOffset c) (isDone c)
         (take (N.to_nat (bytesRead c)) (buffer c)).

(** The final result [uploadManual] reports after the last chunk. *)
Definition upload_done : PrimResult bool :=
  {| success := Some true; error := None; session := true; result := Some true |}.

(** Progress first, then the PUT, chunk after chunk. *)
Definition chunk_events (data : UploadData) (shown : N -> Event) (chunks : list Chunk)
    : list Event :=
  concat (map (fun c => [shown (currentOffset c); put_of data c]) chunks).

(** What the shell's progress callback shows for an offset. *)
Definition shown_progress (filePath : string) (totalSize offset : N) : Event :=
  Progress filePath
    (if totalSize =? 0 then Hundred else Ratio (offset * 100) (Some totalSize)).

Definition not_final_put (e : Event) : Prop :=
  exists fileUrl offset content, e = ReqPut fileUrl offset false content.

(** One block of zero bytes, as a concrete file. *)
Definition one_block : list byte := replicate (N.to_nat Transfer.bufferSize) x00.

(** A file of one block and one byte. *)
Definition block_and_a_byte : list byte := x01 :: one_block.

(** The reply to a file-size query. *)
Definition size_reply (n : N) : CbReply :=
  {| cb_error := None;
     cb_response := Some {| statusCode := 200; location := None |};
     cb_body := Some {| j_id_token := None; j_files := None;
                        j_tag := None; j_size := Some n |} |}.

(** [follows R m]: from every world, [m] ends in a world related to it by
    [R], however it ends. *)
Definition follows {A} (R : World -> World -> Prop) (m : M A) : Prop :=
  forall w, R w (snd (m w)).

(** The path stack is untouched and the trace only grows: the operations
    of [api.js] other than the path stack's own. *)
Definition same_stack (w w' : World) : Prop :=
  pathStack w' = pathStack w /\ trace w `prefix_of` trace w'.

(** The path stack and the trace only grow. *)
Definition grown (w w' : World) : Prop :=
  pathStack w `prefix_of` pathStack w' /\ trace w `prefix_of` trace w'.

(** What [downloadFolder] does once it has entered the folder. *)
Definition inside_folder (fuel : nat) (localPath : string) : M unit :=
  listing <- Api.listFiles fuel ;;
  match listing with
  | None => raise TypeError
  | Some entries =>
      let folderList := List.filter (fun entry => isDir entry) entries in
      let fileList := List.filter (fun entry => negb (isDir entry)) entries in
      Shell.for_of folderList (fun folder =>
        Shell.mkdirSync (Shell.path_join localPath (name folder))) ;;;
      Shell.for_of fileList (fun file =>
        let filePath := Shell.path_join localPath (name file) in
        try_catch
          (Api.downloadFile fuel (id file) filePath
             (fun progress => emit (Progress (name file) progress)) ;;;
           ret tt)
          (fun _ => ret tt)) ;;;
      Shell.for_of folderList (fun folder =>
        Shell.downloadFolder fuel (Some (id folder))
          (Shell.path_join localPath (name folder)))
  end.

(** The listing of an empty remote folder. *)
Definition empty_listing : CbReply := listing [].


(** ** Vocabulary of the further properties *)

(** No ['/'] in [s]. *)
Fixpoint no_slash (s : string) : bool :=
  match s with
  | EmptyString => true
  | String c rest => negb (Ascii.eqb c (Ascii.ascii_of_nat 47)) && no_slash rest
  end.

(** A reply to the create-directory request that carries the new folder in
    its [Location] header. *)
Definition created (loc : string) : CbReply :=
  {| cb_error := None;
     cb_response := Some {| statusCode := 201; location := Some loc |};
     cb_body := None |}.

(** A result a retryable operation resolves with that the supervisor reads
    as a failure: [success] false, or no such property. *)
Definition reads_as_failure {D} (r : OpResult D) : Prop :=
  match r with
  | Rec false _ | Value (Some _) => True
  | _ => False
  end.

(** The ways a call ends without a result, the same way at another type. *)
Definition stopped {A B} (o : outcome A) (o' : outcome B) : Prop :=
  match o, o' with
  | Throw e, Throw e' => e = e'
  | Uncaught e, Uncaught e' => e = e'
  | Hang, Hang => True
  | _, _ => False
  end.

(** A delete whose response stream breaks off: the ['error'] event of the
    response, after a status that is not 401. *)
Definition aborted_delete : StreamReply := Responded 200 [] (Some "aborted").

(** The world in which [j] delete requests have been made, of which the
    first two break off and the third is answered with status 200. *)
Definition recovering (j : nat) : World :=
  set_trace (replicate j (ReqBatchDelete None "entry"))
    (initWorld (Some 0) []
       (drop j [aborted_delete; aborted_delete; Responded 200 [] None]) ∅).

(** The same when the third request finds no connection. *)
Definition breaking (j : nat) : World :=
  set_trace (replicate j (ReqBatchDelete None "entry"))
    (initWorld (Some 0) []
       (drop j [aborted_delete; aborted_delete; ConnFailed "ECONNRESET"]) ∅).

(** From [w] to [w'] exactly the request [e] was sent, and nothing of the
    module's state or of the local file system changed. *)
Definition asked_once (e : Event) (w w' : World) : Prop :=
  trace w' = trace w ++ [e] /\
  pathStack w' = pathStack w /\
  tokens_auth w' = tokens_auth w /\
  creds_user w' = creds_user w /\
  creds_pass w' = creds_pass w /\
  localFiles w' = localFiles w /\
  localDirs w' = localDirs w.

(** The bytes a chunk is sent with: [buffer.slice(0, bytesRead)]. *)
Definition sent (c : Chunk) : list byte := take (N.to_nat (bytesRead c)) (buffer c).

(** A file of two blocks and a half. *)
Definition two_blocks_and_a_half : list byte :=
  one_block ++ one_block ++ replicate (N.to_nat 10240) x02.

(** The bytes of the PUT requests of a trace, in the order they were sent. *)
Definition put_content (e : Event) : option (list byte) :=
  match e with
  | ReqPut _ _ _ content => Some content
  | _ => None
  end.

Definition put_bytes (events : list Event) : list byte :=
  concat (omap put_content events).

(** A reply to a chunk PUT that [uploadBytes] resolves with success: a
    response other than 401 and no error. *)
Definition accepted (r : CbReply) : bool :=
  match cb_response r with
  | Some resp => negb (statusCode resp =? 401) && bool_decide (cb_error r = None)
  | None => false
  end.

(** How [uploadManual] ends on a reply that is not accepted: the failure
    goes to the done callback on a 401; otherwise the callback of the
    request throws. *)
Definition put_refused (r : CbReply) : outcome (option (PrimResult bool)) :=
  match cb_response r with
  | None => Uncaught TypeError
  | Some resp =>
      if statusCode resp =? 401
      then Ok (Some {| success := Some false; error := None; session := false;
                       result := None |})
      else Uncaught ReferenceError
  end.

(** What a download writes and reports while the chunks of the stream
    arrive: each chunk is appended to the destination, then the offset
    before that chunk is shown. *)
Fixpoint download_events (localPath : string) (shown : N -> Event)
    (chunks : list (list byte)) (offset : N) : list Event :=
  match chunks with
  | [] => []
  | chunk :: rest =>
      FsAppend localPath chunk :: shown offset
      :: download_events localPath shown rest (offset + N.of_nat (length chunk))
  end.

(** The local files after the chunks have been appended to [localPath]. *)
Definition append_all (localPath : string) (chunks : list (list byte))
    (files : gmap string (list byte)) : gmap string (list byte) :=
  foldl (fun fs chunk => <[localPath := default [] (fs !! localPath) ++ chunk]> fs)
        files chunks.

(** What [_downloadFile] has the caller's progress callback show. *)
Definition shown_download (localPath : string) (total : option N) (offset : N) : Event :=
  Progress localPath
    (if bool_decide (total = Some 0) then Hundred else Ratio (offset * 100) total).

(** The world after an upload during which the service stored every chunk
    of [file]. *)
Definition uploaded (filePath tag loc : string) (file : list byte)
    (rest : list CbReply) (w : World) : World :=
  set_net_cb rest
    (set_trace
       (trace w
        ++ ReqActivityStart (tokens_auth w)
        :: ReqUploadInit (tokens_auth w) (Some tag) (working_folder w) filePath
        :: chunk_events
             {| authorization := tokens_auth w; xActivityTag := Some tag;
                url := Some loc |}
             (shown_progress filePath (N.of_nat (length file)))
             (Transfer.getFileContent file))
       w).

(** The world after an upload whose opening request was answered 401 and
    the login with the cached credentials that follows it. *)
Definition relogged (filePath tag token : string) (rest : list CbReply) (w : World)
    : World :=
  set_tokens_auth (Some ("Bearer " +:+ token))
    (set_net_cb rest
       (set_trace
          (trace w
           ++ [ReqActivityStart (tokens_auth w);
               ReqUploadInit (tokens_auth w) (Some tag) (working_folder w) filePath;
               ReqLogin (creds_user w) (creds_pass w)])
          w)).

(** The log of requests and local writes only grows. *)
Definition log_grown (w w' : World) : Prop := trace w `prefix_of` trace w'.

(** A local folder [/home/u/A] that holds an empty folder [B] and a file
    [f] of one byte. *)
Definition small_tree_entries (dir : string) : list string :=
  if String.eqb dir "/home/u/A" then ["B"; "f"] else [].

Definition small_tree_is_directory (p : string) : bool := String.eqb p "/home/u/A/B".

Definition small_tree_world : World :=
  set_pathStack ["P"]
    (initWorld (Some 0)
       [created "/sdk/v2/files/idA"; created "/sdk/v2/files/idB";
        activity_started "t"; upload_opened "/sdk/v2/files/idF"; chunk_stored]
       [] {["/home/u/A/f" := [x01]]}).


(** How [_uploadFile] ends when the public [uploadFile] it calls after a
    re-authentication ends with [o]: a value is resolved as it is, an
    exception is lost in the [async] callback. *)
Definition replayed (o : outcome (option bool)) : outcome (OpResult bool) :=
  match o with
  | Ok res => Ok (Value res)
  | Throw e | Uncaught e => Uncaught e
  | Hang => Hang
  | OutOfFuel => OutOfFuel
  end.

(** * Properties *)

Lemma last_lookup_pred {A} (l : list A) : l !! (length l - 1)%nat = last l.
Proof. by rewrite last_lookup, Nat.sub_1_r. Qed.

Lemma getCurrentFolder_eq (w : World) :
  PathStack.getCurrentFolder w = (Ok (last (pathStack w)), w).
Proof.
  unfold PathStack.getCurrentFolder, bind, gets, ret.
  destruct (pathStack w) as [|x l] eqn:E; [reflexivity|].
  change (0 <? length (x :: l))%nat with true. cbv iota.
  by rewrite last_lookup_pred.
Qed.

Lemma currentPath_eq (w : World) : PathStack.currentPath w = (Ok (working_folder w), w).
Proof.
  unfold PathStack.currentPath, working_folder, bind, gets, ret.
  destruct (pathStack w) as [|x l] eqn:E; [reflexivity|].
  change (0 <? length (x :: l))%nat with true. cbv iota.
  rewrite last_lookup_pred. by destruct (last (x :: l)) eqn:L; [|apply last_None in L].
Qed.

(** C9 (as amended): whatever the path stack holds, [getCurrentFolder]
    returns the identifier on top of it and changes nothing; on the empty
    stack it returns [undefined], not ["root"]. The sentinel ["root"] is
    what the retryable operations substitute when they compute their
    working folder. *)
Theorem getCurrentFolder_top_or_undefined :
  (forall w, PathStack.getCurrentFolder w = (Ok (last (pathStack w)), w)) /\
  (forall w, PathStack.getCurrentFolder (set_pathStack [] w)
             = (Ok None, set_pathStack [] w)) /\
  (forall w, PathStack.currentPath w = (Ok (default "root" (last (pathStack w))), w)).
Proof.
  split; [|split]; intros w.
  - apply getCurrentFolder_eq.
  - by rewrite getCurrentFolder_eq.
  - apply currentPath_eq.
Qed.

(** C9 (as stated) fails: on the empty stack the operation does not return
    ["root"]. *)
Lemma getCurrentFolder_empty_not_root :
  fst (PathStack.getCurrentFolder (initWorld None [] [] ∅)) <> Ok (Some "root").
Proof. vm_compute. discriminate. Qed.

(** ** Remote primitives and authentication *)

(** C3 (the code at the failing input): on a transport error, where no HTTP
    response exists, the list, create-directory and file-size primitives
    read [response.statusCode] before they look at [error]: a TypeError is
    thrown inside the callback and no result record is ever produced. The
    delete primitive, whose request gets no response, ends the same way
    with the unhandled error. *)
Theorem primitives_throw_on_transport_error :
  forall (w : World) (e : string) (rest : list CbReply) (srest : list StreamReply)
         (auth : option string) (target dirName : string),
    let w0 := set_net_cb (transport_error e :: rest) w in
    fst (Primitives.ls auth target w0) = Uncaught TypeError /\
    fst (Primitives.mkdir auth target dirName w0) = Uncaught TypeError /\
    fst (Primitives.getFileSize auth target w0) = Uncaught TypeError /\
    fst (Primitives.rm auth target (set_net_stream (ConnFailed e :: srest) w))
      = Uncaught (Error e).
Proof. intros. repeat split; reflexivity. Qed.

(** What the primitives do report as records: a 401 gives [session = false]
    (the file-size query without any [success] property), and a delete whose
    batched status is not 200 gives a failure with [session = true] and no
    error attached. *)
Lemma primitives_failure_records :
  forall (w : World) (r : CbReply) (l : option string) (rest : list CbReply)
         (auth : option string) (target : string),
    cb_response r = Some {| statusCode := 401; location := l |} ->
    let w0 := set_net_cb (r :: rest) w in
    fst (Primitives.ls auth target w0)
      = Ok {| success := Some false; error := None; session := false; result := None |} /\
    fst (Primitives.getFileSize auth target w0)
      = Ok {| success := None; error := None; session := false; result := None |} /\
    fst (Primitives.rm auth target (set_net_stream [Responded 404 [] None] w))
      = Ok {| success := Some false; error := None; session := true; result := Some true |}.
Proof.
  intros w r l rest auth target Hr. cbn.
  unfold Primitives.ls, Primitives.getFileSize, bind, emit, modify, next_cb. cbn.
  rewrite Hr. cbn. auto.
Qed.

(** The login callback has the same order of checks: on a transport error
    [authenticate] throws inside the callback instead of returning
    [false]; the credentials are cached by then. *)
Lemma authenticate_throws_on_transport_error (w : World) (username password : option string)
    (e : string) (rest : list CbReply) :
  let res := authenticate username password (set_net_cb (transport_error e :: rest) w) in
  fst res = Uncaught TypeError /\
  creds_user (snd res) = username /\ creds_pass (snd res) = password.
Proof. by cbn. Qed.




(** ** Retry supervisor *)

Section CallAbstracted.
Context {D : Type}.
Variable tryLimit : nat.
Variable actionName : string.
Variable op : M (OpResult D).

(** The worlds a run of failing attempts goes through. *)
Variable ws : nat -> World.
Hypothesis op_fails :
  forall i, (i <= tryLimit)%nat -> op (ws i) = (Ok (Rec false None), ws (S i)).
Hypothesis attempt_bound :
  forall i, (i <= tryLimit)%nat -> is_Some (g_attempt (ws i)).

Lemma callAbstracted_all_fail (fuel n : nat) :
  (n <= S tryLimit)%nat -> (S tryLimit - n < fuel)%nat ->
  Supervisor.callAbstracted tryLimit op fuel n (ws n)
  = (Ok (false, None, S tryLimit), ws (S tryLimit)).
Proof.
  revert n. induction fuel as [|fuel IH]; intros n Hn Hfuel; [lia|].
  cbn [Supervisor.callAbstracted].
  destruct (tryLimit <? n)%nat eqn:Hlim.
  - apply Nat.ltb_lt in Hlim. by replace n with (S tryLimit) by lia.
  - apply Nat.ltb_ge in Hlim.
    unfold bind at 1, gets at 1.
    destruct (attempt_bound n Hlim) as [v ->].
    unfold bind at 1. rewrite (op_fails n Hlim).
    unfold bind at 1, read_success, ret. cbn [negb].
    apply IH; lia.
Qed.

End CallAbstracted.

(** The budget [retryLimited] gives [callAbstracted] is enough: the model
    of the supervisor runs out of fuel only if the operation does. *)
Lemma callAbstracted_enough_fuel {D} (tryLimit : nat) (op : M (OpResult D)) :
  (forall w, fst (op w) <> OutOfFuel) ->
  forall (fuel n : nat) (w : World),
    (S tryLimit - n < fuel)%nat ->
    fst (Supervisor.callAbstracted tryLimit op fuel n w) <> OutOfFuel.
Proof.
  intros Hop. induction fuel as [|fuel IH]; intros n w Hfuel; [lia|].
  cbn [Supervisor.callAbstracted].
  destruct (tryLimit <? n)%nat eqn:Hlim; [done|]. apply Nat.ltb_ge in Hlim.
  unfold bind at 1, gets at 1. destruct (g_attempt w); [|done].
  unfold bind at 1. specialize (Hop w).
  destruct (op w) as [[r| | | |] w1]; cbn in *; try done.
  unfold bind. destruct r as [[] d|[d|]]; cbn; try done; apply IH; lia.
Qed.

(** When the identifier [attempt] is not bound, the first pass through
    [callAbstracted] throws before the operation is called at all. *)
Lemma retryLimited_attempt_unbound {D} (tryLimit : nat) (actionName : string)
    (op : M (OpResult D)) (w : World) :
  g_attempt w = None ->
  Supervisor.retryLimited tryLimit actionName op w = (Throw ReferenceError, w).
Proof.
  intros Hg. unfold Supervisor.retryLimited, bind.
  replace (tryLimit + 2)%nat with (S (S tryLimit)) by lia.
  cbn [Supervisor.callAbstracted]. change (tryLimit <? 0)%nat with false. cbv iota.
  unfold bind, gets. by rewrite Hg.
Qed.

(** So no public operation gets anywhere in a process that has no global
    [attempt]. *)
Lemma public_operations_need_attempt (fuel : nat) (w : World) (target other : string)
    (progressCallback : Percentage -> M unit) :
  g_attempt w = None ->
  Api.listFiles fuel w = (Throw ReferenceError, w) /\
  Api.createDirectory fuel target w = (Throw ReferenceError, w) /\
  Api.removeFile fuel target w = (Throw ReferenceError, w) /\
  Api.uploadFile (S fuel) target progressCallback w = (Throw ReferenceError, w) /\
  Api.downloadFile fuel target other progressCallback w = (Throw ReferenceError, w).
Proof.
  intros Hg.
  unfold Api.listFiles, Api.createDirectory, Api.removeFile, Api.downloadFile.
  cbn [Api.uploadFile]. unfold try_catch.
  by rewrite !retryLimited_attempt_unbound.
Qed.

(** C1 (the code at the failing input): with a limit of 10, an operation
    that keeps failing is executed eleven times. The worlds [ws 0] ...
    [ws 11] are the ones before and after each execution: the run ends in
    [ws 11], after the eleventh, and only then is the error naming the
    action thrown. *)
Theorem retryLimited_makes_eleventh_attempt :
  forall (D : Type) (actionName : string) (op : M (OpResult D)) (ws : nat -> World),
    (forall i, (i <= 10)%nat -> op (ws i) = (Ok (Rec false None), ws (S i))) ->
    (forall i, (i <= 10)%nat -> is_Some (g_attempt (ws i))) ->
    Supervisor.retryLimited 10 actionName op (ws 0%nat)
    = (Throw (Error ("tried to " +:+ actionName +:+ " 10 times and failed")), ws 11%nat).
Proof.
  intros D actionName op ws Hop Hatt.
  unfold Supervisor.retryLimited, bind.
  rewrite (callAbstracted_all_fail 10 op ws Hop Hatt (10 + 2) 0%nat) by lia.
  reflexivity.
Qed.

Lemma retryLimited_makes_eleventh_attempt_witness :
  Supervisor.retryLimited 10 "list files" (Api._listFiles 1) (after_failed_lists 0%nat)
  = (Throw (Error "tried to list files 10 times and failed"), after_failed_lists 11%nat).
Proof.
  apply (retryLimited_makes_eleventh_attempt _ "list files" (Api._listFiles 1)
           after_failed_lists).
  - intros i Hi. do 11 (destruct i as [|i]; [vm_compute; reflexivity|]). lia.
  - intros i Hi. do 11 (destruct i as [|i]; [vm_compute; eauto|]). lia.
Defined.

(** ** Session expiry *)

Lemma _listFiles_unfold (fuel : nat) :
  Api._listFiles (S fuel)
  = (currentPath <- PathStack.currentPath ;;
     auth <- gets tokens_auth ;;
     res <- Primitives.ls auth currentPath ;;
     if truthy (success res) then ret (Rec true (result res))
     else if bool_decide (is_Some (error res)) then ret (Rec false None)
     else Supervisor.authRetry (Api._listFiles fuel)).
Proof. reflexivity. Qed.

Lemma _listFiles_replays (k : nat) :
  forall (w : World) (token : string) (items : list RawItem) (rest : list CbReply),
    net_cb w = expired_sessions k token ++ listing items :: rest ->
    exists w',
      Api._listFiles (S k) w = (Ok (Rec true (Some (to_entries items))), w') /\
      net_cb w' = rest /\
      g_attempt w' = g_attempt w /\
      pathStack w' = pathStack w /\
      trace w' = trace w ++ replay_trace k (tokens_auth w) (working_folder w)
                              (creds_user w) (creds_pass w) token.
Proof.
  induction k as [|k IH]; intros w token items rest Hnet.
  - rewrite _listFiles_unfold. unfold bind at 1. rewrite currentPath_eq.
    unfold Primitives.ls. run_m. rewrite Hnet. run_m. eauto 10.
  - rewrite _listFiles_unfold. unfold bind at 1. rewrite currentPath_eq.
    unfold Primitives.ls, Supervisor.authRetry, authenticate, Primitives.login.
    generalize (Api._listFiles (S k)) IH. intros again IHagain.
    run_m. rewrite Hnet. run_m.
    match goal with
    | |- context [again ?w1] =>
        destruct (IHagain w1 token items rest eq_refl) as (w' & Hrun & Hn & Hg & Hp & Ht)
    end.
    exists w'. rewrite Hrun. cbn in *. rewrite Ht, <- !app_assoc. auto.
Qed.

Lemma callAbstracted_first_success {D} (tryLimit : nat) (op : M (OpResult D))
    (fuel : nat) (w w' : World) (d : option D) :
  is_Some (g_attempt w) ->
  op w = (Ok (Rec true d), w') ->
  Supervisor.callAbstracted tryLimit op (S fuel) 0 w = (Ok (true, d, 1%nat), w').
Proof.
  intros [v Hv] Hop. cbn [Supervisor.callAbstracted].
  change (tryLimit <? 0)%nat with false. cbv iota.
  unfold bind, gets. rewrite Hv, Hop. reflexivity.
Qed.







(** ** The chunk generator *)

Lemma bufferSize_pos : 0 < Transfer.bufferSize.
Proof. reflexivity. Qed.

Lemma readSync_bytesRead (file buf : list byte) (position : N) :
  snd (Transfer.readSync file buf position)
  = N.min Transfer.bufferSize (N.of_nat (length file) - position).
Proof.
  unfold Transfer.readSync. cbn [snd].
  rewrite length_take, length_drop. lia.
Qed.

Lemma getFileContent_loop_yields (fuel : nat) :
  forall (file buf : list byte) (off : N) (chunks : list Chunk),
    Transfer.getFileContent_loop fuel file buf off = Some chunks ->
    yields (N.of_nat (length file)) off chunks.
Proof.
  pose proof bufferSize_pos as Hbs.
  induction fuel as [|fuel IH]; intros file buf off chunks Hrun; [done|].
  cbn [Transfer.getFileContent_loop] in Hrun.
  destruct (N.of_nat (length file) <=? off) eqn:Hend.
  { apply N.leb_le in Hend. injection Hrun as <-. by constructor. }
  apply N.leb_gt in Hend.
  replace (N.of_nat (length file) <? off) with false in Hrun
    by (symmetry; apply N.ltb_ge; lia).
  pose proof (readSync_bytesRead file buf off) as Hread.
  destruct (Transfer.readSync file buf off) as [buf' n]. cbn [snd] in Hread.
  destruct (n =? Transfer.bufferSize) eqn:Hfull; cbn [negb] in Hrun.
  - apply N.eqb_eq in Hfull.
    destruct (Transfer.getFileContent_loop fuel file buf' (off + n)) as [rest|] eqn:Hrest;
      [|done].
    injection Hrun as <-. apply yields_block; try done; [lia|].
    rewrite <- Hfull. by apply (IH file buf').
  - apply N.eqb_neq in Hfull. injection Hrun as <-.
    apply yields_last; cbn; try done; lia.
Qed.

Lemma getFileContent_loop_total (fuel : nat) :
  forall (file buf : list byte) (off : N),
    (length file - N.to_nat off < fuel)%nat ->
    is_Some (Transfer.getFileContent_loop fuel file buf off).
Proof.
  pose proof bufferSize_pos as Hbs.
  induction fuel as [|fuel IH]; intros file buf off Hfuel; [lia|].
  cbn [Transfer.getFileContent_loop].
  destruct (N.of_nat (length file) <=? off) eqn:Hend; [by eexists|].
  apply N.leb_gt in Hend.
  replace (N.of_nat (length file) <? off) with false
    by (symmetry; apply N.ltb_ge; lia).
  pose proof (readSync_bytesRead file buf off) as Hread.
  destruct (Transfer.readSync file buf off) as [buf' n]. cbn [snd] in Hread.
  destruct (n =? Transfer.bufferSize) eqn:Hfull; cbn [negb]; [|by eexists].
  apply N.eqb_eq in Hfull.
  destruct (IH file buf' (off + n)) as [rest ->]; [lia|]. by eexists.
Qed.

(** The generator never runs out of iterations: what [getFileContent]
    returns is what the loop of the source yields. *)
Lemma getFileContent_yields (file : list byte) :
  yields (N.of_nat (length file)) 0 (Transfer.getFileContent file).
Proof.
  unfold Transfer.getFileContent.
  destruct (getFileContent_loop_total (S (length file)) file
              (replicate (N.to_nat Transfer.bufferSize) x00) 0) as [chunks Hrun]; [lia|].
  rewrite Hrun. by apply getFileContent_loop_yields in Hrun.
Qed.

Lemma yields_empty_file (chunks : list Chunk) : yields 0 0 chunks -> chunks = [].
Proof. inversion 1; [done|lia|]. pose proof bufferSize_pos. lia. Qed.

(** A size that is a multiple of the block size leaves no short block. *)
Lemma yields_full_blocks (size off : N) (chunks : list Chunk) :
  yields size off chunks ->
  (exists j, size = off + j * Transfer.bufferSize) ->
  Forall (fun c => bytesRead c = Transfer.bufferSize /\ isDone c = false) chunks.
Proof.
  pose proof bufferSize_pos as Hbs.
  induction 1 as [off Hend|off c Hlt Hshort Hoff Hread Hdone
                  |off c rest Hle Hoff Hread Hdone Hrest IH]; intros [j Hj].
  - constructor.
  - exfalso. destruct (N.eq_dec j 0) as [->|Hj0]; [lia|]. nia.
  - constructor; [done|]. apply IH.
    destruct (N.eq_dec j 0) as [->|Hj0]; [lia|].
    exists (j - 1). nia.
Qed.

(** Offsets start at [off] and go up, and the last block ends the file. *)
Lemma yields_offsets (size off : N) (chunks : list Chunk) :
  yields size off chunks ->
  Forall (fun c => off <= currentOffset c) chunks /\
  StronglySorted N.lt (map currentOffset chunks) /\
  (off < size ->
   exists c, last chunks = Some c /\ currentOffset c + bytesRead c = size).
Proof.
  pose proof bufferSize_pos as Hbs.
  induction 1 as [off Hend|off c Hlt Hshort Hoff Hread Hdone
                  |off c rest Hle Hoff Hread Hdone Hrest (IHge & IHsorted & IHlast)].
  - repeat split; [constructor|constructor|lia].
  - repeat split.
    + constructor; [lia|constructor].
    + cbn. repeat constructor.
    + intros _. exists c. split; [done|lia].
  - repeat split.
    + constructor; [lia|]. eapply Forall_impl; [exact IHge|]. cbn. intros; lia.
    + cbn. constructor; [done|].
      apply Forall_map. eapply Forall_impl; [exact IHge|]. cbn. intros; lia.
    + intros _. destruct (N.lt_ge_cases (off + Transfer.bufferSize) size) as [Hmore|Hdone'].
      * destruct (IHlast Hmore) as (c' & Hc' & Hsum). exists c'. split; [|done].
        destruct rest; [done|]. by rewrite last_cons, Hc'.
      * inversion Hrest as [? Hend' | |]; subst; [|lia|lia].
        exists c. split; [done|lia].
Qed.

(** ** Chunked upload when the service accepts everything *)

Section UploadRun.
Context {R : Type}.
Variable data : UploadData.
Variable progressCallback : N -> M unit.
Variable doneCallback : PrimResult bool -> M R.

(** The progress callback only records [shown offset]; the done callback
    answers the final result with [v] and nothing else. *)
Variable shown : N -> Event.
Variable v : R.
Hypothesis progress_records : forall offset, progressCallback offset = emit (shown offset).
Hypothesis done_returns : doneCallback upload_done = ret v.

Lemma uploadManual_loop_all_stored (chunks : list Chunk) :
  forall (w : World) (rest : list CbReply),
    net_cb w = replicate (length chunks) chunk_stored ++ rest ->
    Transfer.uploadManual_loop data progressCallback doneCallback chunks w
    = (Ok (if existsb isDone chunks then Some v else None),
       set_net_cb rest (set_trace (trace w ++ chunk_events data shown chunks) w)).
Proof.
  induction chunks as [|c chunks IH]; intros w rest Hnet.
  - cbn in *. unfold ret. destruct w; cbn in *. subst. by rewrite app_nil_r.
  - pose proof done_returns as Hd. unfold upload_done in Hd.
    cbn [Transfer.uploadManual_loop]. rewrite progress_records.
    unfold Transfer.uploadBytes.
    generalize (Transfer.uploadManual_loop data progressCallback doneCallback chunks) IH.
    intros loop IHloop.
    run_m. rewrite Hnet. cbn.
    destruct (isDone c) eqn:Hdone; cbn.
    + rewrite Hd. unfold ret.
      match goal with
      | |- context [loop ?w1] => rewrite (IHloop w1 rest eq_refl)
      end. cbn.
      unfold chunk_events, put_of, set_net_cb, set_trace. cbn.
      rewrite Hdone, <- !app_assoc. reflexivity.
    + match goal with
      | |- context [loop ?w1] => rewrite (IHloop w1 rest eq_refl)
      end.
      unfold chunk_events, put_of, set_net_cb, set_trace. cbn.
      rewrite Hdone, <- !app_assoc. reflexivity.
Qed.

End UploadRun.

(** The whole of [_uploadFile] when the activity starts, the upload session
    opens and every chunk is stored: it resolves if a chunk with
    [isDone = true] came by, and never otherwise. *)
Lemma _uploadFile_all_stored (filePath : string) (self : M (option bool))
    (file : list byte) (tag loc : string) (w : World) (rest : list CbReply) :
  localFiles w !! filePath = Some file ->
  net_cb w = activity_started tag :: upload_opened loc
             :: replicate (length (Transfer.getFileContent file)) chunk_stored ++ rest ->
  Api._uploadFile filePath (fun p => emit (Progress filePath p)) self w
  = ((if existsb isDone (Transfer.getFileContent file)
      then Ok (Rec true (Some true)) else Hang),
     set_net_cb rest
       (set_trace
          (trace w
           ++ ReqActivityStart (tokens_auth w)
           :: ReqUploadInit (tokens_auth w) (Some tag) (working_folder w) filePath
           :: chunk_events
                {| authorization := tokens_auth w; xActivityTag := Some tag;
                   url := Some loc |}
                (shown_progress filePath (N.of_nat (length file)))
                (Transfer.getFileContent file))
          w)).
Proof.
  intros Hfile Hnet.
  unfold Api._uploadFile. unfold bind at 1. rewrite currentPath_eq.
  unfold bind at 1, gets at 1. unfold Transfer.stat_size. rewrite Hfile.
  unfold Transfer.upl, Transfer.startActivity, Transfer.startUpload, Transfer.uploadManual.
  run_m. rewrite Hnet. run_m. rewrite Hfile.
  unfold detach.
  rewrite (uploadManual_loop_all_stored _ _ _
             (shown_progress filePath (N.of_nat (length file)))
             (Rec true (Some true))) with (rest := rest).
  - destruct (existsb isDone (Transfer.getFileContent file)).
    + unfold ret, set_net_cb, set_trace. cbn. by rewrite <- !app_assoc.
    + unfold hang, set_net_cb, set_trace. cbn. by rewrite <- !app_assoc.
  - intros offset. unfold shown_progress. by destruct (N.of_nat (length file) =? 0).
  - reflexivity.
  - done.
Qed.

(** ** Chunked upload, whatever the service answers *)

(** With no chunk flagged [isDone], every PUT carries [done=false] and the
    done callback can only be reached through a failed PUT. *)
Lemma uploadManual_loop_never_done (data : UploadData) (chunks : list Chunk) :
  Forall (fun c => isDone c = false) chunks ->
  forall w : World,
    let run := Transfer.uploadManual_loop data (fun _ => ret tt) ret chunks w in
    (exists puts, trace (snd run) = trace w ++ puts /\ Forall not_final_put puts) /\
    (forall r, fst run = Ok (Some r) -> success r = Some false).
Proof.
  induction 1 as [|c chunks Hc _ IH]; intros w.
  - cbn. split; [|done]. exists []. by rewrite app_nil_r.
  - cbn [Transfer.uploadManual_loop]. unfold Transfer.uploadBytes.
    generalize (Transfer.uploadManual_loop data (fun _ => ret tt) ret chunks) IH.
    intros loop IHloop. rewrite Hc.
    assert (Hput : not_final_put
                     (ReqPut (url data) (currentOffset c) false
                        (take (N.to_nat (bytesRead c)) (buffer c))))
      by (by eexists _, _, _).
    run_m. destruct (net_cb w) as [|r rest]; cbn.
    { split; [|done]. exists [ReqPut (url data) (currentOffset c) false
                                (take (N.to_nat (bytesRead c)) (buffer c))].
      split; [done|by constructor]. }
    destruct (cb_response r) as [resp|]; cbn.
    2:{ split; [|done]. eexists [_]. split; [done|by constructor]. }
    destruct (statusCode resp =? 401); cbn.
    { split; [|by intros r' [= <-]]. eexists [_]. split; [done|by constructor]. }
    destruct (cb_error r); cbn.
    { split; [|done]. eexists [_]. split; [done|by constructor]. }
    match goal with |- context [loop ?w1] => specialize (IHloop w1) end.
    cbn in IHloop. destruct IHloop as [(puts & Htrace & Hputs) Hdone].
    split; [|done]. eexists (_ :: puts). rewrite Htrace, <- app_assoc.
    split; [done|by constructor].
Qed.

(** C4 (the code at the failing input): for a zero-byte file the generator
    yields nothing, so after the activity has started and the upload
    session is open nothing more happens: no PUT, but also no progress
    event and no call of the done callback. The promise of [_uploadFile] is
    never settled, and neither is the one of [uploadFile] that awaits it. *)
Theorem zero_byte_upload_never_settles :
  forall (fuel : nat) (w : World) (filePath tag loc : string)
         (self : M (option bool)) (rest : list CbReply),
    let w0 := set_localFiles (<[filePath := []]> (localFiles w))
                (set_net_cb (activity_started tag :: upload_opened loc :: rest) w) in
    let after := set_net_cb rest
                   (set_trace
                      (trace w ++ [ReqActivityStart (tokens_auth w);
                                   ReqUploadInit (tokens_auth w) (Some tag)
                                     (working_folder w) filePath])
                      w0) in
    Transfer.getFileContent [] = [] /\
    Api._uploadFile filePath (fun p => emit (Progress filePath p)) self w0
    = (Hang, after) /\
    (forall v : N,
       Api.uploadFile (S fuel) filePath (fun p => emit (Progress filePath p))
         (set_g_attempt (Some v) w0)
       = (Hang, set_g_attempt (Some v) after)).
Proof.
  intros fuel w filePath tag loc self rest w0 after.
  assert (Hfile : forall w1, localFiles w1 = localFiles w0 -> localFiles w1 !! filePath = Some [])
    by (intros w1 ->; subst w0; cbn; apply lookup_insert_eq).
  split; [reflexivity|split].
  - rewrite (_uploadFile_all_stored filePath self [] tag loc w0 rest);
      [reflexivity|by apply Hfile|reflexivity].
  - intros v. cbn [Api.uploadFile]. unfold try_catch, Supervisor.retryLimited, bind.
    change (10 + 2)%nat with 12%nat. cbn [Supervisor.callAbstracted].
    change (10 <? 0)%nat with false. cbv iota.
    unfold bind at 1, gets at 1. cbn [g_attempt set_g_attempt]. unfold bind at 1.
    rewrite (_uploadFile_all_stored filePath _ [] tag loc (set_g_attempt (Some v) w0) rest);
      [reflexivity|by apply Hfile|reflexivity].
Qed.

(** C5 (as amended): for a file whose size is a non-zero multiple of the
    block size, the generator yields only full blocks with [isDone = false];
    whatever the service answers, no PUT with [done=true] is sent and the
    done callback is never called with a success; and when every PUT is
    stored the done callback is not called at all, so the promise of the
    upload is never settled. *)
Theorem block_multiple_upload_never_done :
  forall (file : list byte) (k : N),
    0 < k ->
    N.of_nat (length file) = k * Transfer.bufferSize ->
    Forall (fun c => bytesRead c = Transfer.bufferSize /\ isDone c = false)
           (Transfer.getFileContent file) /\
    (forall (data : UploadData) (filePath : string) (w : World),
       let w0 := set_localFiles (<[filePath := file]> (localFiles w)) w in
       let run := Transfer.uploadManual data (fun _ => ret tt) ret filePath w0 in
       (exists puts, trace (snd run) = trace w ++ puts /\ Forall not_final_put puts) /\
       (forall r, fst run = Ok (Some r) -> success r = Some false)) /\
    (forall (filePath tag loc : string) (self : M (option bool)) (w : World)
            (rest : list CbReply),
       let w0 := set_localFiles (<[filePath := file]> (localFiles w))
                   (set_net_cb
                      (activity_started tag :: upload_opened loc
                       :: replicate (length (Transfer.getFileContent file)) chunk_stored
                       ++ rest) w) in
       let run := Api._uploadFile filePath (fun p => emit (Progress filePath p)) self w0 in
       fst run = Hang /\ net_cb (snd run) = rest).
Proof.
  intros file k Hk Hsize.
  assert (Hfull : Forall (fun c => bytesRead c = Transfer.bufferSize /\ isDone c = false)
                    (Transfer.getFileContent file)).
  { eapply yields_full_blocks; [apply getFileContent_yields|]. exists k. lia. }
  assert (Hnot : Forall (fun c => isDone c = false) (Transfer.getFileContent file)).
  { eapply Forall_impl; [exact Hfull|]. by intros c [_ ?]. }
  split; [exact Hfull|split].
  - intros data filePath w w0 run. subst run. unfold Transfer.uploadManual.
    unfold bind, gets.
    replace (localFiles w0 !! filePath) with (Some file)
      by (subst w0; cbn; by rewrite lookup_insert_eq).
    destruct (uploadManual_loop_never_done data _ Hnot w0) as [Hputs Hdone].
    unfold detach.
    destruct (Transfer.uploadManual_loop data (fun _ => ret tt) ret
                (Transfer.getFileContent file) w0) as [[r| | | |] w1]; cbn in *;
      split; done.
  - intros filePath tag loc self w rest w0 run. subst run.
    rewrite (_uploadFile_all_stored filePath self file tag loc w0 rest);
      [|subst w0; cbn; apply lookup_insert_eq|reflexivity].
    replace (existsb isDone (Transfer.getFileContent file)) with false; [done|].
    symmetry. apply not_true_is_false. intros Hex.
    apply existsb_exists in Hex as (c & Hin & Hc).
    rewrite Forall_forall in Hnot. apply list_elem_of_In in Hin.
    specialize (Hnot c Hin). congruence.
Qed.

Lemma block_multiple_upload_never_done_witness :
  Forall (fun c => bytesRead c = Transfer.bufferSize /\ isDone c = false)
         (Transfer.getFileContent one_block) /\
  fst (Api._uploadFile "f" (fun p => emit (Progress "f" p)) (ret None)
         (set_localFiles (<["f" := one_block]> ∅)
            (set_net_cb
               (activity_started "tag" :: upload_opened "/sdk/v2/files/f1"
                :: replicate (length (Transfer.getFileContent one_block)) chunk_stored ++ [])
               (initWorld None [] [] ∅))))
  = Hang.
Proof.
  assert (Hpos : 0 < 1) by lia.
  assert (Hsize : N.of_nat (length one_block) = 1 * Transfer.bufferSize)
    by (vm_compute; reflexivity).
  destruct (block_multiple_upload_never_done one_block 1 Hpos Hsize)
    as (Hfull & _ & Hhang).
  split; [exact Hfull|].
  exact (proj1 (Hhang "f" "tag" "/sdk/v2/files/f1" (ret None) (initWorld None [] [] ∅) [])).
Defined.

(** C5 (as stated) fails: for a file of exactly one block whose PUT is
    answered with 401, the done callback is called, with the failure. *)
Lemma done_callback_called_on_failed_put :
  let data := {| authorization := None; xActivityTag := None; url := None |} in
  let w := initWorld None [unauthorized] [] {["f" := one_block]} in
  N.of_nat (length one_block) = 1 * 20480 /\
  fst (Transfer.uploadManual data (fun _ => ret tt) ret "f" w)
  = Ok (Some {| success := Some false; error := None; session := false;
                result := None |}).
Proof. vm_compute. split; reflexivity. Qed.

(** C6 (as amended): when the activity starts, the session opens and every
    chunk PUT is stored, an upload of a file larger than one block reports
    the offset of the start of each chunk once, just before the PUT of that
    chunk is sent; the offsets increase, and the last one is the file size
    minus the size of the last chunk. *)
Theorem upload_progress_precedes_each_put :
  forall (file : list byte) (filePath tag loc : string) (self : M (option bool))
         (w : World) (rest : list CbReply),
    Transfer.bufferSize < N.of_nat (length file) ->
    let chunks := Transfer.getFileContent file in
    let totalSize := N.of_nat (length file) in
    let w0 := set_localFiles (<[filePath := file]> (localFiles w))
                (set_net_cb
                   (activity_started tag :: upload_opened loc
                    :: replicate (length chunks) chunk_stored ++ rest) w) in
    let data := {| authorization := tokens_auth w; xActivityTag := Some tag;
                   url := Some loc |} in
    trace (snd (Api._uploadFile filePath (fun p => emit (Progress filePath p)) self w0))
    = trace w
      ++ ReqActivityStart (tokens_auth w)
      :: ReqUploadInit (tokens_auth w) (Some tag) (working_folder w) filePath
      :: concat (map (fun c =>
                        [Progress filePath (Ratio (currentOffset c * 100) (Some totalSize));
                         put_of data c])
                     chunks) /\
    StronglySorted N.lt (map currentOffset chunks) /\
    exists c, last chunks = Some c /\ currentOffset c = totalSize - bytesRead c.
Proof.
  intros file filePath tag loc self w rest Hsize chunks totalSize w0 data.
  pose proof bufferSize_pos as Hbs.
  destruct (yields_offsets _ _ _ (getFileContent_yields file)) as (_ & Hsorted & Hlast).
  split; [|split; [exact Hsorted|]].
  - rewrite (_uploadFile_all_stored filePath self file tag loc w0 rest);
      [|subst w0; cbn; apply lookup_insert_eq|reflexivity].
    cbn [snd]. subst w0. cbn. unfold chunk_events, shown_progress.
    replace (N.of_nat (length file) =? 0) with false
      by (symmetry; apply N.eqb_neq; lia).
    reflexivity.
  - destruct Hlast as (c & Hc & Hsum); [lia|]. exists c. split; [done|]. subst totalSize. lia.
Qed.

Lemma upload_progress_precedes_each_put_witness :
  StronglySorted N.lt (map currentOffset (Transfer.getFileContent block_and_a_byte)) /\
  exists c, last (Transfer.getFileContent block_and_a_byte) = Some c /\
            currentOffset c = N.of_nat (length block_and_a_byte) - bytesRead c.
Proof.
  assert (Hsize : Transfer.bufferSize < N.of_nat (length block_and_a_byte))
    by (vm_compute; reflexivity).
  exact (proj2 (upload_progress_precedes_each_put block_and_a_byte "f" "tag"
                  "/sdk/v2/files/f1" (ret None) (initWorld None [] [] ∅) [] Hsize)).
Defined.

(** C6 (as stated) fails: the progress callback is not called after a
    successful PUT but before the PUT is sent. When the first PUT of a
    two-chunk file is answered with 401, offset 0 has been reported all the
    same: one progress event, no successful PUT. *)
Lemma progress_reported_before_put_succeeds :
  let data := {| authorization := None; xActivityTag := None; url := None |} in
  let w := initWorld None [unauthorized] [] {["f" := block_and_a_byte]} in
  let run := Transfer.uploadManual data
               (fun offset => emit (shown_progress "f" 20481 offset)) ret "f" w in
  fst run = Ok (Some {| success := Some false; error := None; session := false;
                        result := None |}) /\
  trace (snd run) !! 0%nat = Some (Progress "f" (Ratio 0 (Some 20481))) /\
  match trace (snd run) !! 1%nat with
  | Some (ReqPut None 0 false content) => N.of_nat (length content) = 20480
  | _ => False
  end /\
  length (trace (snd run)) = 2%nat.
Proof. vm_compute. repeat split. Qed.

(** ** Chunked download *)

(** C7 (the code at the failing input): a remote file of zero bytes, whose
    stream ends without a ['data'] event. The download resolves with
    success, but the progress callback is never called and nothing is
    written: the trace holds the two requests only and the local file
    system is as before, so a destination that did not exist still does
    not. *)
Theorem zero_byte_download_creates_nothing :
  forall (fuel : nat) (w : World) (token fileID localFilePath : string)
         (rest : list CbReply) (srest : list StreamReply),
    let w0 := set_tokens_auth (Some token)
                (set_net_cb (size_reply 0 :: rest)
                   (set_net_stream (Responded 200 [] None :: srest) w)) in
    let requests := [ReqFileSize (Some token) fileID;
                     ReqDownload (String.substring 7 (String.length token - 7) token)
                       fileID] in
    let after := set_net_cb rest
                   (set_net_stream srest (set_trace (trace w ++ requests) w0)) in
    localFiles after = localFiles w /\
    Api._downloadFile (S fuel) fileID localFilePath
      (fun p => emit (Progress localFilePath p)) w0
    = (Ok (Rec true (Some true)), after) /\
    (forall v : N,
       Api.downloadFile (S fuel) fileID localFilePath
         (fun p => emit (Progress localFilePath p)) (set_g_attempt (Some v) w0)
       = (Ok (Some true), set_g_attempt (Some v) after)).
Proof.
  intros fuel w token fileID localFilePath rest srest w0 requests after.
  split; [reflexivity|split].
  - cbn [Api._downloadFile].
    unfold Transfer.dwl, Primitives.getFileSize, detach.
    generalize (Api._downloadFile fuel fileID localFilePath
                  (fun p => emit (Progress localFilePath p))).
    intros again. subst after requests w0.
    destruct w as [ps tok cu cp ga ncb nst lf ld tr]. run_m.
    lazy beta iota zeta delta
      [set_trace set_net_cb set_net_stream set_tokens_auth
       pathStack tokens_auth creds_user creds_pass g_attempt net_cb net_stream
       localFiles localDirs trace].
    by rewrite <- app_assoc.
  - intros v. unfold Api.downloadFile, try_catch, Supervisor.retryLimited.
    change (10 + 2)%nat with 12%nat. cbn [Supervisor.callAbstracted].
    change (10 <? 0)%nat with false. cbv iota.
    cbn [Api._downloadFile].
    unfold Transfer.dwl, Primitives.getFileSize, detach.
    generalize (Api._downloadFile fuel fileID localFilePath
                  (fun p => emit (Progress localFilePath p))).
    intros again. subst after requests w0.
    destruct w as [ps tok cu cp ga ncb nst lf ld tr]. run_m.
    lazy beta iota zeta delta
      [set_trace set_net_cb set_net_stream set_tokens_auth set_g_attempt
       pathStack tokens_auth creds_user creds_pass g_attempt net_cb net_stream
       localFiles localDirs trace].
    by rewrite <- app_assoc.
Qed.

(** The same on a fresh module with nothing on disk: the download is
    reported as done and the destination file does not exist. *)
Lemma zero_byte_download_leaves_no_file :
  let w0 := set_tokens_auth (Some "Bearer T")
              (initWorld (Some 0) [size_reply 0] [Responded 200 [] None] ∅) in
  let run := Api.downloadFile 1 "file-id" "/home/user/empty.txt"
               (fun p => emit (Progress "empty.txt" p)) w0 in
  fst run = Ok (Some true) /\
  localFiles (snd run) !! "/home/user/empty.txt" = None /\
  trace (snd run) = [ReqFileSize (Some "Bearer T") "file-id"; ReqDownload "T" "file-id"].
Proof. vm_compute. repeat split. Qed.

(** ** What a computation leaves in place *)

Lemma same_stack_grown (w w' : World) : same_stack w w' -> grown w w'.
Proof. intros [Hs Ht]. split; [by rewrite Hs|done]. Qed.

Section Follows.
Context (R : relation World) `{!PreOrder R}.

Lemma follows_ret {A} (a : A) : follows R (ret a).
Proof. intros w. reflexivity. Qed.

Lemma follows_stop {A} (o : outcome A) : follows R (fun w => (o, w)).
Proof. intros w. reflexivity. Qed.

Lemma follows_gets {A} (f : World -> A) : follows R (gets f).
Proof. intros w. reflexivity. Qed.

Lemma follows_bind {A B} (m : M A) (k : A -> M B) :
  follows R m -> (forall a, follows R (k a)) -> follows R (bind m k).
Proof.
  intros Hm Hk w. unfold bind. specialize (Hm w).
  destruct (m w) as [[a| | | |] w1]; cbn in *; try done.
  etrans; [exact Hm|apply Hk].
Qed.

Lemma follows_try_catch {A} (m : M A) (h : exn -> M A) :
  follows R m -> (forall e, follows R (h e)) -> follows R (try_catch m h).
Proof.
  intros Hm Hh w. unfold try_catch. specialize (Hm w).
  destruct (m w) as [[a| | | |] w1]; cbn in *; try done.
  etrans; [exact Hm|apply Hh].
Qed.

Lemma follows_detach {A} (m : M A) : follows R m -> follows R (detach m).
Proof.
  intros Hm w. unfold detach. specialize (Hm w).
  by destruct (m w) as [[a| | | |] w1].
Qed.

Lemma follows_for_of {A} (l : list A) (body : A -> M unit) :
  (forall x, follows R (body x)) -> follows R (Shell.for_of l body).
Proof.
  intros Hbody. induction l as [|x l IH]; cbn [Shell.for_of].
  - apply follows_ret.
  - apply follows_bind; [apply Hbody|by intros _].
Qed.

Lemma follows_callAbstracted {D} (tryLimit : nat) (op : M (OpResult D)) (fuel n : nat) :
  follows R op -> follows R (Supervisor.callAbstracted tryLimit op fuel n).
Proof.
  intros Hop. revert n. induction fuel as [|fuel IH]; intros n;
    cbn [Supervisor.callAbstracted]; [apply follows_stop|].
  destruct (tryLimit <? n)%nat; [apply follows_ret|].
  apply follows_bind; [apply follows_gets|]. intros [v|]; [|apply follows_stop].
  apply follows_bind; [exact Hop|]. intros r.
  apply follows_bind.
  { destruct r as [s d|[d|]]; first [apply follows_ret|apply follows_stop]. }
  intros ok. destruct ok; cbn [negb]; [apply follows_ret|apply IH].
Qed.

Lemma follows_retryLimited {D} (tryLimit : nat) (actionName : string)
    (op : M (OpResult D)) :
  follows R op -> follows R (Supervisor.retryLimited tryLimit actionName op).
Proof.
  intros Hop. unfold Supervisor.retryLimited.
  apply follows_bind; [by apply follows_callAbstracted|].
  intros [[ok d] n]. destruct ok; [apply follows_ret|apply follows_stop].
Qed.
End Follows.

#[global] Instance same_stack_preorder : PreOrder same_stack.
Proof.
  split.
  - by split.
  - intros w1 w2 w3 [Hs1 Ht1] [Hs2 Ht2]. split; [congruence|by etrans].
Qed.

#[global] Instance grown_preorder : PreOrder grown.
Proof.
  split.
  - by split.
  - intros w1 w2 w3 [Hs1 Ht1] [Hs2 Ht2]. split; by etrans.
Qed.

Lemma same_stack_emit (e : Event) : follows same_stack (emit e).
Proof. intros w. split; [done|]. cbn. by apply prefix_app_r. Qed.

Lemma same_stack_modify (f : World -> World) :
  (forall w, pathStack (f w) = pathStack w) ->
  (forall w, trace (f w) = trace w) ->
  follows same_stack (modify f).
Proof. intros Hs Ht w. split; cbn; [apply Hs|by rewrite Ht]. Qed.

Lemma same_stack_next_cb : follows same_stack next_cb.
Proof. intros w. unfold next_cb. by destruct (net_cb w). Qed.

Lemma same_stack_next_stream : follows same_stack next_stream.
Proof. intros w. unfold next_stream. by destruct (net_stream w). Qed.

(** Applies a lemma of the section above and finds the preorder. *)
Ltac use lem := apply lem; [apply _ | ..].

(** Takes a computation apart along its binds and case distinctions. *)
Ltac same_stack_steps :=
  repeat first
    [ use @follows_ret
    | use @follows_stop
    | use @follows_gets
    | apply same_stack_emit
    | apply same_stack_next_cb
    | apply same_stack_next_stream
    | apply same_stack_modify; [reflexivity|reflexivity]
    | apply follows_detach
    | use @follows_bind; [|intros]
    | match goal with
      | |- follows _ (match ?x with _ => _ end) => destruct x
      | |- follows _ (if ?b then _ else _) => destruct b
      | |- follows _ (let '(_, _) := ?x in _) => destruct x
      end
    | assumption ].

Lemma same_stack_currentPath : follows same_stack PathStack.currentPath.
Proof. unfold PathStack.currentPath. same_stack_steps. Qed.

Lemma same_stack_authenticate (username password : option string) :
  follows same_stack (authenticate username password).
Proof. unfold authenticate, Primitives.login. same_stack_steps. Qed.

Lemma same_stack_authRetry {A} (func : M A) :
  follows same_stack func -> follows same_stack (Supervisor.authRetry func).
Proof.
  intros Hfunc. unfold Supervisor.authRetry.
  same_stack_steps; apply same_stack_authenticate.
Qed.

Lemma same_stack__listFiles (fuel : nat) : follows same_stack (Api._listFiles fuel).
Proof.
  induction fuel as [|fuel IH]; cbn [Api._listFiles]; [same_stack_steps|].
  use @follows_bind;
    [apply same_stack_currentPath|intros currentPath].
  unfold Primitives.ls. same_stack_steps; by apply same_stack_authRetry.
Qed.

Lemma same_stack_listFiles (fuel : nat) : follows same_stack (Api.listFiles fuel).
Proof.
  unfold Api.listFiles.
  use @follows_try_catch;
    [|intros e; same_stack_steps].
  use @follows_retryLimited.
  apply same_stack__listFiles.
Qed.

Lemma same_stack_on_data (localPath : string)
    (progressCallback : N -> option N -> M unit) (totalSize : option N)
    (chunks : list (list byte)) :
  (forall offset total, follows same_stack (progressCallback offset total)) ->
  forall offset, follows same_stack
                   (Transfer.on_data localPath progressCallback totalSize chunks offset).
Proof.
  intros Hcb. induction chunks as [|chunk chunks IH]; intros offset;
    cbn [Transfer.on_data]; [same_stack_steps|].
  unfold Transfer.appendFileSync. same_stack_steps; [apply Hcb|apply IH].
Qed.

Lemma same_stack_dwl (authToken : option string) (fileID localPath : string)
    (progressCallback : N -> option N -> M unit) :
  (forall offset total, follows same_stack (progressCallback offset total)) ->
  follows same_stack (Transfer.dwl authToken fileID localPath progressCallback).
Proof.
  intros Hcb. unfold Transfer.dwl, Primitives.getFileSize. same_stack_steps;
    by apply same_stack_on_data.
Qed.

Lemma same_stack_late_events (localPath : string)
    (progressCallback : N -> option N -> M unit) (late : option Transfer.Late) :
  (forall offset total, follows same_stack (progressCallback offset total)) ->
  follows same_stack (Transfer.late_events localPath progressCallback late).
Proof.
  intros Hcb. unfold Transfer.late_events. destruct late as [l|]; [|same_stack_steps].
  same_stack_steps; by apply same_stack_on_data.
Qed.

Lemma same_stack__downloadFile (fuel : nat) (fileID localFilePath : string)
    (progressCallback : Percentage -> M unit) :
  (forall p, follows same_stack (progressCallback p)) ->
  follows same_stack (Api._downloadFile fuel fileID localFilePath progressCallback).
Proof.
  intros Hcb. induction fuel as [|fuel IH]; cbn [Api._downloadFile]; [same_stack_steps|].
  use @follows_bind;
    [same_stack_steps|intros auth].
  use @follows_bind.
  { apply same_stack_dwl. intros offset total. by destruct (bool_decide _). }
  intros settled.
  destruct (truthy (success settled.1)); [same_stack_steps|].
  destruct (bool_decide (is_Some (error settled.1))); [same_stack_steps|].
  apply same_stack_authRetry.
  use @follows_bind; [|intros _; exact IH].
  apply same_stack_late_events. intros offset total. by destruct (bool_decide _).
Qed.

Lemma same_stack_downloadFile (fuel : nat) (fileID localFilePath : string)
    (progressCallback : Percentage -> M unit) :
  (forall p, follows same_stack (progressCallback p)) ->
  follows same_stack (Api.downloadFile fuel fileID localFilePath progressCallback).
Proof.
  intros Hcb. unfold Api.downloadFile.
  use @follows_try_catch;
    [|intros e; same_stack_steps].
  use @follows_retryLimited.
  by apply same_stack__downloadFile.
Qed.

Lemma same_stack_mkdirSync (dir : string) : follows same_stack (Shell.mkdirSync dir).
Proof. unfold Shell.mkdirSync. same_stack_steps. Qed.

Lemma follows_grown {A} (m : M A) : follows same_stack m -> follows grown m.
Proof. intros Hm w. apply same_stack_grown, Hm. Qed.

Lemma grown_enterDirectory (folderID : option string) :
  follows grown (PathStack.enterDirectory folderID).
Proof.
  intros w. destruct folderID as [folder|]; cbn; [|reflexivity].
  split; cbn; [by apply prefix_app_r|done].
Qed.

Lemma downloadFolder_unfold (fuel : nat) (remoteFolderID : option string)
    (localPath : string) :
  Shell.downloadFolder (S fuel) remoteFolderID localPath
  = (PathStack.enterDirectory remoteFolderID ;;; inside_folder fuel localPath).
Proof. reflexivity. Qed.

Lemma grown_downloadFolder (fuel : nat) :
  forall (remoteFolderID : option string) (localPath : string),
    follows grown (Shell.downloadFolder fuel remoteFolderID localPath).
Proof.
  induction fuel as [|fuel IH]; intros remoteFolderID localPath.
  { use @follows_stop. }
  rewrite downloadFolder_unfold.
  use @follows_bind;
    [apply grown_enterDirectory|intros _].
  unfold inside_folder.
  use @follows_bind;
    [apply follows_grown, same_stack_listFiles|intros [entries|]].
  2:{ use @follows_stop. }
  cbv zeta.
  use @follows_bind.
  { use @follows_for_of. intros folder.
    apply follows_grown, same_stack_mkdirSync. }
  intros _. use @follows_bind.
  { use @follows_for_of. intros file.
    apply follows_grown.
    use @follows_try_catch.
    - use @follows_bind.
      + apply same_stack_downloadFile. intros p. apply same_stack_emit.
      + intros _. use @follows_ret.
    - intros _. use @follows_ret. }
  intros _. use @follows_for_of. intros folder. apply IH.
Qed.

Lemma grown_inside_folder (fuel : nat) (localPath : string) :
  follows grown (inside_folder fuel localPath).
Proof.
  intros w.
  pose proof (grown_downloadFolder (S fuel) None localPath w) as H.
  rewrite downloadFolder_unfold in H. exact H.
Qed.

Lemma bind_Ok_inv {A B} (m : M A) (k : A -> M B) (w w' : World) (b : B) :
  bind m k w = (Ok b, w') ->
  exists a w1, m w = (Ok a, w1) /\ k a w1 = (Ok b, w').
Proof.
  unfold bind. destruct (m w) as [[a| | | |] w1]; try done. intros Hk. by exists a, w1.
Qed.

Lemma enterDirectory_Ok_inv (folderID : option string) (w w' : World) :
  PathStack.enterDirectory folderID w = (Ok tt, w') ->
  trace w' = trace w /\
  pathStack w' = pathStack w ++ match folderID with Some folder => [folder] | None => [] end.
Proof.
  destruct folderID as [folder|]; cbn; intros [= <-]; cbn; [done|by rewrite app_nil_r].
Qed.

Lemma mkdirSync_Ok_inv (dir : string) (w w' : World) :
  Shell.mkdirSync dir w = (Ok tt, w') ->
  trace w' = trace w ++ [FsMkdir dir] /\ pathStack w' = pathStack w.
Proof.
  unfold Shell.mkdirSync. run_m. destruct (bool_decide (dir ∈ localDirs w)); [done|].
  by intros [= <-].
Qed.

(** C8 (the code on every download that completes): the folder is entered
    twice, once by [recursiveDownloadFolders] and once more by
    [downloadFolder], nothing is ever left again, and the saved folder is
    entered on top at the end. The path stack after the call is the one
    before it with at least two more entries, never the same sequence. The
    destination directory is created first, before anything is requested. *)
Theorem recursive_download_grows_path_stack :
  forall (fuel : nat) (srcFolderID basepath : string) (w w' : World),
    Shell.recursiveDownloadFolders fuel srcFolderID basepath w = (Ok tt, w') ->
    (exists deeper, pathStack w' = pathStack w ++ srcFolderID :: srcFolderID :: deeper) /\
    pathStack w' <> pathStack w /\
    (exists later, trace w' = trace w ++ FsMkdir basepath :: later).
Proof.
  intros fuel src basepath w w' Hrun.
  unfold Shell.recursiveDownloadFolders in Hrun.
  apply bind_Ok_inv in Hrun as (current & w0 & Hcur & Hrun).
  rewrite getCurrentFolder_eq in Hcur.
  injection Hcur as <- <-.
  apply bind_Ok_inv in Hrun as ([] & w1 & Henter & Hrun).
  apply enterDirectory_Ok_inv in Henter as [Ht1 Hs1].
  apply bind_Ok_inv in Hrun as ([] & w2 & Hmk & Hrun).
  apply mkdirSync_Ok_inv in Hmk as [Ht2 Hs2].
  apply bind_Ok_inv in Hrun as ([] & w3 & Hdl & Hlast).
  apply enterDirectory_Ok_inv in Hlast as [Ht4 Hs4].
  destruct fuel as [|fuel]; [done|].
  rewrite downloadFolder_unfold in Hdl.
  apply bind_Ok_inv in Hdl as ([] & w2' & Henter2 & Hinside).
  apply enterDirectory_Ok_inv in Henter2 as [Ht2' Hs2'].
  pose proof (grown_inside_folder fuel basepath w2') as [[more Hmore] [later Hlater]].
  rewrite Hinside in Hmore, Hlater. cbn [snd] in Hmore, Hlater.
  assert (Hstack : exists deeper,
             pathStack w' = pathStack w ++ src :: src :: deeper).
  { eexists. rewrite Hs4, Hmore, Hs2', Hs2, Hs1, <- !app_assoc. cbn. reflexivity. }
  split; [exact Hstack|split].
  - destruct Hstack as [deeper ->]. intros Heq.
    rewrite <- (app_nil_r (pathStack w)) in Heq at 2.
    by apply app_inv_head in Heq.
  - eexists. rewrite Ht4, Hlater, Ht2', Ht2, Ht1, <- !app_assoc. cbn. reflexivity.
Qed.

(** On a fresh module (empty stack, working folder root) downloading the
    empty folder ["A"] completes and leaves the stack at [A; A]: the
    working folder is now ["A"], and the stack was empty before. *)
Lemma recursive_download_grows_path_stack_witness :
  let w := initWorld (Some 0) [empty_listing] [] ∅ in
  let w' := snd (Shell.recursiveDownloadFolders 2 "A" "/home/user/A" w) in
  (exists deeper, pathStack w' = pathStack w ++ "A" :: "A" :: deeper) /\
  pathStack w' <> pathStack w /\
  (exists later, trace w' = trace w ++ FsMkdir "/home/user/A" :: later).
Proof.
  apply (recursive_download_grows_path_stack 2 "A" "/home/user/A"
           (initWorld (Some 0) [empty_listing] [] ∅)
           (snd (Shell.recursiveDownloadFolders 2 "A" "/home/user/A"
                   (initWorld (Some 0) [empty_listing] [] ∅)))).
  vm_compute. reflexivity.
Defined.

Lemma recursive_download_of_empty_folder :
  let w := initWorld (Some 0) [empty_listing] [] ∅ in
  let run := Shell.recursiveDownloadFolders 2 "A" "/home/user/A" w in
  fst run = Ok tt /\
  pathStack w = [] /\
  pathStack (snd run) = ["A"; "A"] /\
  fst (PathStack.getCurrentFolder (snd run)) = Ok (Some "A") /\
  trace (snd run) = [FsMkdir "/home/user/A"; ReqLs None "A"].
Proof. vm_compute. repeat split. Qed.

(** * Further properties of the code *)

(** ** Path stack: entering, leaving, unwinding *)

Lemma splice_removelast {A} (l : list A) :
  PathStack.splice l (length l - 1) 1 = take (length l - 1) l.
Proof.
  unfold PathStack.splice. rewrite drop_ge; [by rewrite app_nil_r|]. lia.
Qed.

Lemma enterParentDirectory_eq (w : World) :
  PathStack.enterParentDirectory w
  = if (0 <? length (pathStack w))%nat
    then (Ok true, set_pathStack (take (length (pathStack w) - 1) (pathStack w)) w)
    else (Ok false, w).
Proof.
  unfold PathStack.enterParentDirectory, bind, gets, modify, ret.
  destruct (0 <? length (pathStack w))%nat; [|done].
  by rewrite splice_removelast.
Qed.

(** Entering a folder and then its parent: the folder entered is the
    working folder in between, the step back reports [true], and the stack
    is the one before. Entering [undefined] changes nothing. *)
Theorem enter_then_parent_restores_stack :
  forall (w : World) (folderID : string),
    let entered := snd (PathStack.enterDirectory (Some folderID) w) in
    let back := PathStack.enterParentDirectory entered in
    fst (PathStack.getCurrentFolder entered) = Ok (Some folderID) /\
    fst back = Ok true /\
    pathStack (snd back) = pathStack w /\
    PathStack.enterDirectory None w = (Ok tt, w).
Proof.
  intros w folderID entered back. subst back entered.
  rewrite getCurrentFolder_eq, enterParentDirectory_eq. cbn.
  rewrite last_snoc, length_app, Nat.add_1_r. cbn.
  rewrite Nat.sub_0_r, take_app_length. done.
Qed.

(** [removePathStackEntries(n)] takes the last [n] entries off the stack,
    or all of them when there are fewer, and never fails. *)
Theorem removePathStackEntries_truncates :
  forall (removeCount : nat) (w : World),
    let run := PathStack.removePathStackEntries removeCount w in
    fst run = Ok tt /\
    pathStack (snd run) = take (length (pathStack w) - removeCount) (pathStack w) /\
    trace (snd run) = trace w /\
    tokens_auth (snd run) = tokens_auth w.
Proof.
  induction removeCount as [|n IH]; intros w run; subst run.
  - cbn. rewrite Nat.sub_0_r, firstn_all. done.
  - assert (Hstep : PathStack.removePathStackEntries (S n) w
                    = if (0 <? length (pathStack w))%nat
                      then PathStack.removePathStackEntries n
                             (set_pathStack (take (length (pathStack w) - 1) (pathStack w)) w)
                      else (Ok tt, w)).
    { cbn [PathStack.removePathStackEntries]. unfold bind.
      rewrite enterParentDirectory_eq.
      by destruct (0 <? length (pathStack w))%nat. }
    rewrite Hstep. destruct (0 <? length (pathStack w))%nat eqn:Hlen.
    + apply Nat.ltb_lt in Hlen.
      specialize (IH (set_pathStack (take (length (pathStack w) - 1) (pathStack w)) w)).
      cbn in IH. destruct IH as (Hok & Hstack & Htrace & Htok).
      repeat split; [done| |done|done].
      rewrite Hstack, length_take, take_take. f_equal. lia.
    + apply Nat.ltb_ge in Hlen. cbn.
      destruct (pathStack w) as [|x l]; [done|cbn in Hlen; lia].
Qed.

(** ** The identifier of a new folder *)

Lemma append_cons (c : Ascii.ascii) (s t : string) :
  String c s +:+ t = String c (s +:+ t).
Proof. reflexivity. Qed.

Lemma append_nil_r (s : string) : s +:+ "" = s.
Proof. induction s as [|c s IH]; [done|]. by rewrite append_cons, IH. Qed.

Lemma append_snoc (acc : string) (c : Ascii.ascii) (s : string) :
  (acc +:+ String c "") +:+ s = acc +:+ String c s.
Proof. induction acc as [|a acc IH]; [done|]. by rewrite !append_cons, IH. Qed.

Lemma no_slash_snoc (acc : string) (c : Ascii.ascii) :
  no_slash acc = true -> Ascii.eqb c (Ascii.ascii_of_nat 47) = false ->
  no_slash (acc +:+ String c "") = true.
Proof.
  intros Hacc Hc. induction acc as [|a acc IH].
  - change ("" +:+ String c "") with (String c ""). unfold no_slash. by rewrite Hc.
  - rewrite append_cons. cbn [no_slash] in *. apply andb_true_iff in Hacc as [Ha Hacc].
    rewrite Ha. by apply IH.
Qed.

Lemma last_segment_from_no_slash (s acc : string) :
  no_slash s = true -> Primitives.last_segment_from s acc = acc +:+ s.
Proof.
  revert acc. induction s as [|c s IH]; intros acc Hs;
    cbn [Primitives.last_segment_from no_slash] in *.
  - by rewrite append_nil_r.
  - apply andb_true_iff in Hs as [Hc Hs].
    destruct (Ascii.eqb c (Ascii.ascii_of_nat 47)); [done|].
    by rewrite IH, append_snoc.
Qed.

Lemma last_segment_from_after_slash (prefix s acc : string) :
  Primitives.last_segment_from (prefix +:+ "/" +:+ s) acc
  = Primitives.last_segment_from s "".
Proof.
  revert acc. induction prefix as [|c prefix IH]; intros acc.
  - reflexivity.
  - rewrite append_cons. cbn [Primitives.last_segment_from].
    destruct (Ascii.eqb c (Ascii.ascii_of_nat 47)); apply IH.
Qed.

Lemma last_segment_from_has_no_slash (s acc : string) :
  no_slash acc = true -> no_slash (Primitives.last_segment_from s acc) = true.
Proof.
  revert acc. induction s as [|c s IH]; intros acc Hacc;
    cbn [Primitives.last_segment_from]; [done|].
  destruct (Ascii.eqb c (Ascii.ascii_of_nat 47)) eqn:Hc; [by apply IH|].
  apply IH. by apply no_slash_snoc.
Qed.

Lemma _createDirectory_created (fuel : nat) (dirName loc : string) (w : World)
    (rest : list CbReply) :
  Api._createDirectory (S fuel) dirName (set_net_cb (created loc :: rest) w)
  = (Ok (Rec true (Some (Primitives.last_segment loc))),
     set_net_cb rest
       (set_trace (trace w ++ [ReqMkdir (tokens_auth w) (working_folder w) dirName]) w)).
Proof.
  cbn [Api._createDirectory]. unfold bind at 1. rewrite currentPath_eq.
  unfold Primitives.mkdir.
  generalize (Supervisor.authRetry (Api._createDirectory fuel dirName)). intros again.
  run_m. reflexivity.
Qed.

(** The identifier of a new folder is the part of the [Location] header
    after its last ['/']: for a header [<path>/<id>] with no ['/'] in [<id>]
    the retryable [_createDirectory] resolves with [<id>], having sent one
    request for the working folder with the stored token. The public
    [createDirectory] returns [<id>] where the identifier [attempt] is
    bound, and throws ReferenceError before any request where it is not.
    What is taken from a header never contains a ['/']. *)
Theorem createDirectory_returns_last_segment :
  forall (fuel : nat) (w : World) (dirName path newID : string) (rest : list CbReply),
    no_slash newID = true ->
    let w0 := set_net_cb (created (path +:+ "/" +:+ newID) :: rest) w in
    let made := set_net_cb rest
                  (set_trace
                     (trace w ++ [ReqMkdir (tokens_auth w) (working_folder w) dirName])
                     w) in
    Api._createDirectory (S fuel) dirName w0 = (Ok (Rec true (Some newID)), made) /\
    Api.createDirectory (S fuel) dirName w0
    = match g_attempt w with
      | Some _ => (Ok (Some newID), made)
      | None => (Throw ReferenceError, w0)
      end /\
    (forall loc, no_slash (Primitives.last_segment loc) = true).
Proof.
  intros fuel w dirName path newID rest Hid w0 made.
  assert (Hrun : Api._createDirectory (S fuel) dirName w0
                 = (Ok (Rec true (Some newID)), made)).
  { subst w0 made. rewrite _createDirectory_created.
    unfold Primitives.last_segment.
    by rewrite last_segment_from_after_slash, last_segment_from_no_slash. }
  split; [exact Hrun|]. split.
  - destruct (g_attempt w) as [v|] eqn:Hg.
    + unfold Api.createDirectory, try_catch, Supervisor.retryLimited, bind.
      change (10 + 2)%nat with 12%nat.
      assert (Hbound : is_Some (g_attempt w0)) by (by exists v).
      by rewrite (callAbstracted_first_success 10 _ 11 w0 made _ Hbound Hrun).
    + by apply (public_operations_need_attempt (S fuel) w0 dirName ""
                  (fun _ => ret tt)).
  - intros loc. by apply last_segment_from_has_no_slash.
Qed.

Lemma createDirectory_returns_last_segment_witness :
  let reply := [created ("/sdk/v2/files" +:+ "/" +:+ "abc123")] in
  fst (Api.createDirectory 1 "photos"
         (set_net_cb reply (initWorld (Some 0) [] [] ∅)))
  = Ok (Some "abc123") /\
  fst (Api.createDirectory 1 "photos" (set_net_cb reply (initWorld None [] [] ∅)))
  = Throw ReferenceError /\
  fst (Api._createDirectory 1 "photos" (set_net_cb reply (initWorld None [] [] ∅)))
  = Ok (Rec true (Some "abc123")).
Proof.
  intros reply.
  assert (Hid : no_slash "abc123" = true) by reflexivity.
  destruct (createDirectory_returns_last_segment 0 (initWorld (Some 0) [] [] ∅)
              "photos" "/sdk/v2/files" "abc123" [] Hid) as (_ & Hbound & _).
  destruct (createDirectory_returns_last_segment 0 (initWorld None [] [] ∅)
              "photos" "/sdk/v2/files" "abc123" [] Hid) as (Hop & Hunbound & _).
  cbv zeta in Hbound, Hunbound, Hop. subst reply.
  split; [by rewrite Hbound|]. split; [by rewrite Hunbound|by rewrite Hop].
Defined.

(** ** The supervisor stops at the first attempt that does not fail *)

Section FirstOutcome.
Context {D : Type}.
Variable tryLimit : nat.
Variable op : M (OpResult D).

(** The worlds before and after each execution, and the number [i] of
    failures before the execution that decides. *)
Variable ws : nat -> World.
Variable i : nat.
Hypothesis within_limit : (i <= tryLimit)%nat.
Hypothesis fails_before :
  forall j, (j < i)%nat ->
    exists r, op (ws j) = (Ok r, ws (S j)) /\ reads_as_failure r.
Hypothesis attempt_bound : forall j, (j <= i)%nat -> is_Some (g_attempt (ws j)).

Lemma callAbstracted_reaches (fuel n : nat) :
  (n <= i)%nat -> (i - n < fuel)%nat ->
  Supervisor.callAbstracted tryLimit op fuel n (ws n)
  = Supervisor.callAbstracted tryLimit op (fuel - (i - n)) i (ws i).
Proof.
  revert n. induction fuel as [|fuel IH]; intros n Hn Hfuel; [lia|].
  destruct (decide (n = i)) as [->|Hne].
  { by replace (S fuel - (i - i))%nat with (S fuel) by lia. }
  cbn [Supervisor.callAbstracted].
  replace (tryLimit <? n)%nat with false by (symmetry; apply Nat.ltb_ge; lia).
  unfold bind at 1, gets at 1.
  destruct (attempt_bound n Hn) as [v ->].
  destruct (fails_before n) as (r & Hop & Hr); [lia|].
  unfold bind at 1. rewrite Hop.
  assert (Hread : read_success r = ret false)
    by (by destruct r as [[] d|[d|]]).
  unfold bind at 1. rewrite Hread. unfold ret. cbn [negb].
  rewrite IH by lia. f_equal. lia.
Qed.

Lemma callAbstracted_success (d : option D) :
  op (ws i) = (Ok (Rec true d), ws (S i)) ->
  Supervisor.callAbstracted tryLimit op (tryLimit + 2) 0 (ws 0%nat)
  = (Ok (true, d, S i), ws (S i)).
Proof.
  intros Hop. rewrite callAbstracted_reaches by lia.
  replace (tryLimit + 2 - (i - 0))%nat with (S (tryLimit + 1 - i)) by lia.
  cbn [Supervisor.callAbstracted].
  replace (tryLimit <? i)%nat with false by (symmetry; apply Nat.ltb_ge; lia).
  unfold bind at 1, gets at 1.
  destruct (attempt_bound i (Nat.le_refl i)) as [v ->].
  unfold bind. by rewrite Hop.
Qed.

Lemma callAbstracted_stops (o : outcome (OpResult D))
    (o' : outcome (bool * option D * nat)) :
  op (ws i) = (o, ws (S i)) -> stopped o o' ->
  Supervisor.callAbstracted tryLimit op (tryLimit + 2) 0 (ws 0%nat) = (o', ws (S i)).
Proof.
  intros Hop Hstop. rewrite callAbstracted_reaches by lia.
  replace (tryLimit + 2 - (i - 0))%nat with (S (tryLimit + 1 - i)) by lia.
  cbn [Supervisor.callAbstracted].
  replace (tryLimit <? i)%nat with false by (symmetry; apply Nat.ltb_ge; lia).
  unfold bind at 1, gets at 1.
  destruct (attempt_bound i (Nat.le_refl i)) as [v ->].
  unfold bind. rewrite Hop.
  destruct o as [r|e|e| |], o' as [r'|e'|e'| |]; cbn in Hstop; by subst.
Qed.

End FirstOutcome.

Lemma callAbstracted_unfold {D} (tryLimit : nat) (op : M (OpResult D)) (fuel n : nat) :
  Supervisor.callAbstracted tryLimit op (S fuel) n
  = if (tryLimit <? n)%nat then ret (false, None, n)
    else
      attempt <- gets g_attempt ;;
      match attempt with
      | None => raise ReferenceError
      | Some _ =>
          result <- op ;;
          ok <- read_success result ;;
          if negb ok then Supervisor.callAbstracted tryLimit op fuel (S n)
          else ret (true, read_data result, S n)
      end.
Proof. reflexivity. Qed.

(** An operation that fails [i] times, [i] at most the limit, and then
    succeeds. Where the identifier [attempt] is bound in the worlds the run
    goes through, [retryLimited] returns the data of that success, and the
    operation has been executed [i + 1] times (the run ends in the world
    after the success). Where it is not bound at the start, [retryLimited]
    throws ReferenceError and the operation is not executed at all. *)
Theorem retryLimited_returns_first_success :
  forall (D : Type) (tryLimit : nat) (actionName : string) (op : M (OpResult D))
         (ws : nat -> World) (i : nat) (d : option D),
    (i <= tryLimit)%nat ->
    (forall j, (j < i)%nat ->
       exists r, op (ws j) = (Ok r, ws (S j)) /\ reads_as_failure r) ->
    op (ws i) = (Ok (Rec true d), ws (S i)) ->
    ((forall j, (j <= i)%nat -> is_Some (g_attempt (ws j))) ->
     Supervisor.retryLimited tryLimit actionName op (ws 0%nat) = (Ok d, ws (S i))) /\
    (g_attempt (ws 0%nat) = None ->
     Supervisor.retryLimited tryLimit actionName op (ws 0%nat)
     = (Throw ReferenceError, ws 0%nat)).
Proof.
  intros D tryLimit actionName op ws i d Hi Hfail Hop. split.
  - intros Hatt. unfold Supervisor.retryLimited, bind.
    by rewrite (callAbstracted_success tryLimit op ws i Hi Hfail Hatt d Hop).
  - apply retryLimited_attempt_unbound.
Qed.

(** A delete whose response breaks off twice and then succeeds. *)
Lemma retryLimited_returns_first_success_witness :
  Supervisor.retryLimited 10 "remove file" (Api._removeFile 1 "entry") (recovering 0)
  = (Ok (Some true), recovering 3).
Proof.
  apply (retryLimited_returns_first_success _ 10 "remove file" (Api._removeFile 1 "entry")
           recovering 2 (Some true)).
  - lia.
  - intros j Hj. exists (Rec false None).
    do 2 (destruct j as [|j]; [vm_compute; split; [reflexivity|exact I]|]). lia.
  - vm_compute. reflexivity.
  - intros j Hj. do 3 (destruct j as [|j]; [vm_compute; eauto|]). lia.
Defined.

(** An operation that throws, or whose callback throws, or that never
    settles, is not tried again. Where the identifier [attempt] is bound in
    the worlds the run goes through, after any number of failures within
    the limit [retryLimited] ends the way that execution ended, and not
    with the error that names the action. Where it is not bound at the
    start, [retryLimited] throws ReferenceError before any execution. *)
Theorem retryLimited_does_not_retry_exceptions :
  forall (D : Type) (tryLimit : nat) (actionName : string) (op : M (OpResult D))
         (ws : nat -> World) (i : nat) (o : outcome (OpResult D)),
    (i <= tryLimit)%nat ->
    (forall j, (j < i)%nat ->
       exists r, op (ws j) = (Ok r, ws (S j)) /\ reads_as_failure r) ->
    op (ws i) = (o, ws (S i)) ->
    (forall r, o <> Ok r) -> o <> OutOfFuel ->
    ((forall j, (j <= i)%nat -> is_Some (g_attempt (ws j))) ->
     exists o' : outcome (option D),
       Supervisor.retryLimited tryLimit actionName op (ws 0%nat) = (o', ws (S i)) /\
       stopped o o') /\
    (g_attempt (ws 0%nat) = None ->
     Supervisor.retryLimited tryLimit actionName op (ws 0%nat)
     = (Throw ReferenceError, ws 0%nat)).
Proof.
  intros D tryLimit actionName op ws i o Hi Hfail Hop Hnot_ok Hfuel.
  split; [|apply retryLimited_attempt_unbound].
  intros Hatt. unfold Supervisor.retryLimited, bind.
  destruct o as [r|e|e| |]; [by destruct (Hnot_ok r)| | | |done].
  - exists (Throw e).
    by rewrite (callAbstracted_stops tryLimit op ws i Hi Hfail Hatt _ (Throw e) Hop).
  - exists (Uncaught e).
    by rewrite (callAbstracted_stops tryLimit op ws i Hi Hfail Hatt _ (Uncaught e) Hop).
  - exists Hang.
    by rewrite (callAbstracted_stops tryLimit op ws i Hi Hfail Hatt _ Hang Hop).
Qed.

(** A delete whose response breaks off twice and that then finds no
    connection: the ['error'] event of the request, which nobody listens
    to, ends the whole operation. *)
Lemma retryLimited_does_not_retry_exceptions_witness :
  exists o' : outcome (option bool),
    Supervisor.retryLimited 10 "remove file" (Api._removeFile 1 "entry") (breaking 0)
    = (o', breaking 3) /\
    stopped (Uncaught (Error "ECONNRESET") : outcome (OpResult bool)) o'.
Proof.
  apply (retryLimited_does_not_retry_exceptions _ 10 "remove file"
           (Api._removeFile 1 "entry") breaking 2 (Uncaught (Error "ECONNRESET"))).
  - lia.
  - intros j Hj. exists (Rec false None).
    do 2 (destruct j as [|j]; [vm_compute; split; [reflexivity|exact I]|]). lia.
  - vm_compute. reflexivity.
  - intros r. discriminate.
  - discriminate.
  - intros j Hj. do 3 (destruct j as [|j]; [vm_compute; eauto|]). lia.
Defined.

(** ** The primitives are stateless *)

(** Whatever the service answers (and also when it never does), each of
    the list, create-directory, file-size and delete primitives sends
    exactly one request and takes at most the next reply; the token, the
    cached credentials, the path stack and the local file system are as
    before. *)
Theorem primitives_send_one_request_and_keep_state :
  forall (w : World) (auth : option string) (target dirName : string),
    (let w' := snd (Primitives.ls auth target w) in
     asked_once (ReqLs auth target) w w' /\
     net_cb w' = tail (net_cb w) /\ net_stream w' = net_stream w) /\
    (let w' := snd (Primitives.mkdir auth target dirName w) in
     asked_once (ReqMkdir auth target dirName) w w' /\
     net_cb w' = tail (net_cb w) /\ net_stream w' = net_stream w) /\
    (let w' := snd (Primitives.getFileSize auth target w) in
     asked_once (ReqFileSize auth target) w w' /\
     net_cb w' = tail (net_cb w) /\ net_stream w' = net_stream w) /\
    (let w' := snd (Primitives.rm auth target w) in
     asked_once (ReqBatchDelete auth target) w w' /\
     net_stream w' = tail (net_stream w) /\ net_cb w' = net_cb w).
Proof.
  intros w auth target dirName. unfold asked_once.
  split; [|split; [|split]].
  - unfold Primitives.ls. run_m.
    destruct (net_cb w) as [|r rest] eqn:Hnet; cbn; rewrite ?Hnet; [done|].
    destruct (cb_response r) as [resp|]; cbn; [|done].
    destruct (statusCode resp =? 401); cbn; [done|].
    destruct (cb_error r); cbn; [done|].
    destruct (cb_body r) as [obj|]; cbn; [|done].
    by destruct (j_files obj).
  - unfold Primitives.mkdir. run_m.
    destruct (net_cb w) as [|r rest] eqn:Hnet; cbn; rewrite ?Hnet; [done|].
    destruct (cb_response r) as [resp|]; cbn; [|done].
    destruct (statusCode resp =? 401); cbn; [done|].
    destruct (cb_error r); cbn; [done|].
    by destruct (location resp).
  - unfold Primitives.getFileSize. run_m.
    destruct (net_cb w) as [|r rest] eqn:Hnet; cbn; rewrite ?Hnet; [done|].
    destruct (cb_response r) as [resp|]; cbn; [|done].
    destruct (statusCode resp =? 401); cbn; [done|].
    destruct (cb_error r); cbn; [done|].
    by destruct (cb_body r).
  - unfold Primitives.rm, Primitives.multipartMixed. run_m.
    destruct (net_stream w) as [|[e|status chunks fin] rest] eqn:Hnet; cbn;
      rewrite ?Hnet; [done|done|].
    destruct (status =? 401); cbn; [done|].
    by destruct fin.
Qed.

(** ** Deleting an entry *)

(** One round of [_removeFile]: the delete succeeds only when the batched
    status is 200; a stream error is an ordinary failure; every other
    answer, a 401 but also any other status, is taken for a session expiry,
    followed by a re-authentication with the cached credentials and a
    replay. *)
Theorem removeFile_round_outcomes :
  forall (fuel : nat) (fileID : string) (w : World) (status : N)
         (chunks : list (list byte)) (fin : option string) (srest : list StreamReply),
    let asked := set_net_stream srest
                   (set_trace (trace w ++ [ReqBatchDelete (tokens_auth w) fileID]) w) in
    let replay := (authenticate (creds_user w) (creds_pass w) ;;;
                   Api._removeFile fuel fileID) asked in
    Api._removeFile (S fuel) fileID (set_net_stream (Responded status chunks fin :: srest) w)
    = if status =? 401 then replay
      else match fin with
           | Some _ => (Ok (Rec false None), asked)
           | None => if status =? 200 then (Ok (Rec true (Some true)), asked) else replay
           end.
Proof.
  intros fuel fileID w status chunks fin srest asked replay. subst replay asked.
  cbn [Api._removeFile].
  unfold Primitives.rm, Primitives.multipartMixed, Supervisor.authRetry.
  generalize (Api._removeFile fuel fileID). intros again.
  run_m. destruct (status =? 401) eqn:H401; cbn; [done|].
  destruct fin as [e|]; cbn; [done|].
  destruct (status =? 200) eqn:H200.
  - apply N.eqb_eq in H200 as ->. by cbn.
  - apply N.eqb_neq in H200.
    rewrite bool_decide_eq_false_2 by congruence. by cbn.
Qed.

(** ** The chunks are the file *)

Lemma readSync_eq (file buf : list byte) (position : N) :
  Transfer.readSync file buf position
  = (take (N.to_nat Transfer.bufferSize) (drop (N.to_nat position) file)
     ++ drop (length (take (N.to_nat Transfer.bufferSize) (drop (N.to_nat position) file)))
          buf,
     N.of_nat (length (take (N.to_nat Transfer.bufferSize)
                         (drop (N.to_nat position) file)))).
Proof. reflexivity. Qed.

Lemma getFileContent_loop_sent (fuel : nat) :
  forall (file buf : list byte) (off : N) (chunks : list Chunk),
    Transfer.getFileContent_loop fuel file buf off = Some chunks ->
    concat (map sent chunks) = drop (N.to_nat off) file.
Proof.
  pose proof bufferSize_pos as Hbs.
  induction fuel as [|fuel IH]; intros file buf off chunks Hrun; [done|].
  cbn [Transfer.getFileContent_loop] in Hrun.
  destruct (N.of_nat (length file) <=? off) eqn:Hend.
  { apply N.leb_le in Hend. injection Hrun as <-. cbn.
    rewrite drop_ge; [done|lia]. }
  apply N.leb_gt in Hend.
  replace (N.of_nat (length file) <? off) with false in Hrun
    by (symmetry; apply N.ltb_ge; lia).
  pose proof (readSync_eq file buf off) as Hread.
  destruct (Transfer.readSync file buf off) as [buf' n].
  remember (take (N.to_nat Transfer.bufferSize) (drop (N.to_nat off) file)) as bytes
    eqn:Hbytes.
  injection Hread as -> ->.
  assert (Hlen : length bytes
                 = Nat.min (N.to_nat Transfer.bufferSize) (length file - N.to_nat off))
    by (subst bytes; by rewrite length_take, length_drop).
  assert (Hsent : forall b d,
             sent {| buffer := bytes ++ drop (length bytes) buf;
                     bytesRead := N.of_nat (length bytes);
                     currentOffset := b; isDone := d |} = bytes).
  { intros b d. unfold sent. cbn [buffer bytesRead].
    by rewrite Nat2N.id, take_app_length. }
  destruct (N.of_nat (length bytes) =? Transfer.bufferSize) eqn:Hfull; cbn [negb] in Hrun.
  - apply N.eqb_eq in Hfull.
    destruct (Transfer.getFileContent_loop fuel file (bytes ++ drop (length bytes) buf)
                (off + N.of_nat (length bytes))) as [rest|] eqn:Hrest; [|done].
    injection Hrun as <-. cbn [map concat]. rewrite Hsent.
    rewrite (IH _ _ _ _ Hrest).
    replace (N.to_nat (off + N.of_nat (length bytes)))
      with (N.to_nat off + N.to_nat Transfer.bufferSize)%nat by lia.
    rewrite <- drop_drop. subst bytes. apply take_drop.
  - apply N.eqb_neq in Hfull. injection Hrun as <-. cbn [map concat].
    rewrite Hsent, app_nil_r. subst bytes. apply take_ge.
    rewrite length_drop. lia.
Qed.

Lemma yields_count (size off : N) (chunks : list Chunk) :
  yields size off chunks ->
  N.of_nat (length chunks) = (size - off + Transfer.bufferSize - 1) / Transfer.bufferSize /\
  existsb isDone chunks = negb ((size - off) mod Transfer.bufferSize =? 0).
Proof.
  assert (Hbs : Transfer.bufferSize = 20480) by reflexivity.
  induction 1 as [off Hend|off c Hlt Hshort Hoff Hread Hdone
                  |off c rest Hle Hoff Hread Hdone Hrest [IHn IHd]];
    rewrite Hbs in *.
  - replace (size - off) with 0 by lia. done.
  - cbn [length existsb]. rewrite Hdone. cbn [orb]. split.
    + change (N.of_nat 1) with 1. apply (N.div_unique _ _ 1 (size - off - 1)); lia.
    + rewrite N.mod_small by lia. symmetry. apply negb_true_iff, N.eqb_neq. lia.
  - cbn [length existsb]. rewrite Hdone. cbn [orb]. split.
    + rewrite Nat2N.inj_succ, IHn.
      replace (size - off + 20480 - 1) with (size - (off + 20480) + 20480 - 1 + 1 * 20480)
        by lia.
      rewrite N.div_add by lia. lia.
    + rewrite IHd. f_equal. f_equal.
      replace (size - off) with (size - (off + 20480) + 1 * 20480) by lia.
      by rewrite N.Div0.mod_add.
Qed.

Lemma getFileContent_sent (file : list byte) :
  concat (map sent (Transfer.getFileContent file)) = file.
Proof.
  unfold Transfer.getFileContent.
  destruct (getFileContent_loop_total (S (length file)) file
              (replicate (N.to_nat Transfer.bufferSize) x00) 0) as [cs Hrun]; [lia|].
  rewrite Hrun. change (default [] (Some cs)) with cs.
  by rewrite (getFileContent_loop_sent _ _ _ _ _ Hrun).
Qed.

Lemma getFileContent_count (file : list byte) :
  N.of_nat (length (Transfer.getFileContent file))
  = (N.of_nat (length file) + 20480 - 1) / 20480.
Proof.
  destruct (yields_count _ _ _ (getFileContent_yields file)) as [Hn _].
  rewrite Hn. by rewrite N.sub_0_r.
Qed.

Lemma getFileContent_done (file : list byte) :
  existsb isDone (Transfer.getFileContent file)
  = negb (N.of_nat (length file) mod 20480 =? 0).
Proof.
  destruct (yields_count _ _ _ (getFileContent_yields file)) as [_ Hd].
  rewrite Hd. by rewrite N.sub_0_r.
Qed.

Lemma getFileContent_done_is_last (file : list byte) (j : nat) (c : Chunk) :
  Transfer.getFileContent file !! j = Some c -> isDone c = true ->
  S j = length (Transfer.getFileContent file).
Proof.
  revert j c. generalize (getFileContent_yields file).
  generalize (Transfer.getFileContent file). generalize 0 at 1. intros off chunks Hyields.
  induction Hyields as [off Hend|off c Hlt Hshort Hoff Hread Hdone
                        |off c rest Hle Hoff Hread Hdone Hrest IH]; intros j c' Hj Hc'.
  - done.
  - destruct j; [done|]. by destruct j.
  - destruct j as [|j]; cbn in Hj; [congruence|].
    cbn [length]. f_equal. by apply (IH j c').
Qed.

(** Cutting a file into chunks loses and adds nothing: the bytes the chunks
    are sent with, one after the other, are the file. There is one chunk per
    started block of 20480 bytes, and a chunk with [isDone = true] exists
    exactly when the size is not a multiple of the block size: it is the
    last one. *)
Theorem getFileContent_chunks_are_the_file :
  forall file : list byte,
    let chunks := Transfer.getFileContent file in
    let totalSize := N.of_nat (length file) in
    concat (map sent chunks) = file /\
    N.of_nat (length chunks) = (totalSize + 20480 - 1) / 20480 /\
    existsb isDone chunks = negb (totalSize mod 20480 =? 0) /\
    (forall j c, chunks !! j = Some c -> isDone c = true -> S j = length chunks).
Proof.
  intros file chunks totalSize.
  split; [apply getFileContent_sent|].
  split; [apply getFileContent_count|].
  split; [apply getFileContent_done|].
  intros j c. apply getFileContent_done_is_last.
Qed.

(** ** Uploads that go through, and uploads that are cut short *)

Lemma put_bytes_app (t1 t2 : list Event) : put_bytes (t1 ++ t2) = put_bytes t1 ++ put_bytes t2.
Proof. unfold put_bytes. by rewrite omap_app, concat_app. Qed.

Lemma put_bytes_chunk_events (data : UploadData) (filePath : string) (totalSize : N)
    (chunks : list Chunk) :
  put_bytes (chunk_events data (shown_progress filePath totalSize) chunks)
  = concat (map sent chunks).
Proof.
  induction chunks as [|c chunks IH]; [done|].
  unfold chunk_events in *. cbn [map concat].
  rewrite put_bytes_app, IH. f_equal.
  unfold put_bytes, shown_progress, put_of, sent. cbn. apply app_nil_r.
Qed.

(** When the activity starts, the session opens and every chunk is stored,
    the bytes of the PUT requests are the file, from its first byte to its
    last, and the script is used up to the last PUT. The upload resolves
    with success exactly when the size of the file is not a multiple of
    20480; for a multiple, the empty file included, it never settles. *)
Theorem upload_sends_the_file_and_settles_unless_block_multiple :
  forall (file : list byte) (filePath tag loc : string) (self : M (option bool))
         (w : World) (rest : list CbReply),
    let chunks := Transfer.getFileContent file in
    let w0 := set_localFiles (<[filePath := file]> (localFiles w))
                (set_net_cb
                   (activity_started tag :: upload_opened loc
                    :: replicate (length chunks) chunk_stored ++ rest) w) in
    let run := Api._uploadFile filePath (fun p => emit (Progress filePath p)) self w0 in
    fst run = (if N.of_nat (length file) mod 20480 =? 0
               then Hang else Ok (Rec true (Some true))) /\
    put_bytes (trace (snd run)) = put_bytes (trace w) ++ file /\
    net_cb (snd run) = rest.
Proof.
  intros file filePath tag loc self w rest chunks w0 run. subst run.
  rewrite (_uploadFile_all_stored filePath self file tag loc w0 rest);
    [|subst w0; cbn; apply lookup_insert_eq|reflexivity].
  pose proof (getFileContent_sent file) as Hsent.
  rewrite (getFileContent_done file).
  split; [by destruct (N.of_nat (length file) mod 20480 =? 0)|].
  split; [|done]. subst w0.
  cbn [snd trace set_net_cb set_trace set_localFiles tokens_auth].
  rewrite put_bytes_app.
  change (ReqActivityStart ?a :: ReqUploadInit ?b ?c ?d ?e :: ?l)
    with ([ReqActivityStart a; ReqUploadInit b c d e] ++ l).
  by rewrite put_bytes_app, put_bytes_chunk_events, Hsent.
Qed.

Section UploadCut.
Variable data : UploadData.
Variable shown : N -> Event.

Lemma uploadManual_loop_stops (pre : list Chunk) :
  forall (c : Chunk) (post : list Chunk) (w : World) (r : CbReply) (rest : list CbReply),
    Forall (fun c => isDone c = false) pre ->
    accepted r = false ->
    net_cb w = replicate (length pre) chunk_stored ++ r :: rest ->
    Transfer.uploadManual_loop data (fun offset => emit (shown offset)) ret
      (pre ++ c :: post) w
    = (put_refused r,
       set_net_cb rest (set_trace (trace w ++ chunk_events data shown (pre ++ [c])) w)).
Proof.
  induction pre as [|p pre IH]; intros c post w r rest Hpre Hr Hnet.
  - cbn [app Transfer.uploadManual_loop]. unfold Transfer.uploadBytes.
    generalize (Transfer.uploadManual_loop data (fun offset => emit (shown offset)) ret post).
    intros loop. unfold accepted, put_refused in *.
    run_m. rewrite Hnet. cbn.
    assert (Hevents : forall t : list Event,
               (t ++ [shown (currentOffset c)])
               ++ [ReqPut (url data) (currentOffset c) (isDone c)
                     (take (N.to_nat (bytesRead c)) (buffer c))]
               = t ++ chunk_events data shown [c])
      by (intros t; by rewrite <- app_assoc).
    rewrite Hevents.
    destruct (cb_response r) as [resp|]; cbn; [|done].
    destruct (statusCode resp =? 401); cbn; [done|].
    destruct (cb_error r); cbn; [done|]. by rewrite bool_decide_eq_true_2 in Hr.
  - inversion Hpre as [|? ? Hp Hpre']; subst.
    cbn [app Transfer.uploadManual_loop]. unfold Transfer.uploadBytes.
    generalize (Transfer.uploadManual_loop data (fun offset => emit (shown offset)) ret
                  (pre ++ c :: post)) (IH c post).
    intros loop IHloop. run_m. rewrite Hnet. cbn. rewrite Hp.
    match goal with
    | |- context [loop ?w1] => rewrite (IHloop w1 r rest Hpre' Hr eq_refl)
    end.
    unfold chunk_events, put_of, set_net_cb, set_trace. cbn.
    by rewrite Hp, <- !app_assoc.
Qed.
End UploadCut.

(** The upload of a file stops at the first chunk PUT that is not accepted
    (a 401, an error, no response at all): the chunks up to that one have
    been sent, each after its progress event, and nothing after it; the
    replies that follow stay unread. On a 401 the failure goes to the done
    callback; in the other cases the callback of the request throws and
    the done callback is never called. *)
Theorem upload_stops_at_first_refused_put :
  forall (file : list byte) (filePath : string) (data : UploadData) (shown : N -> Event)
         (i : nat) (w : World) (r : CbReply) (rest : list CbReply),
    let chunks := Transfer.getFileContent file in
    (i < length chunks)%nat ->
    accepted r = false ->
    let w0 := set_localFiles (<[filePath := file]> (localFiles w))
                (set_net_cb (replicate i chunk_stored ++ r :: rest) w) in
    let run := Transfer.uploadManual data (fun offset => emit (shown offset)) ret
                 filePath w0 in
    fst run = put_refused r /\
    trace (snd run) = trace w ++ chunk_events data shown (take (S i) chunks) /\
    net_cb (snd run) = rest.
Proof.
  intros file filePath data shown i w r rest chunks Hi Hr w0 run. subst run.
  pose proof (getFileContent_done_is_last file) as Hlast.
  fold chunks in Hlast.
  destruct (lookup_lt_is_Some_2 chunks i Hi) as [c Hc].
  assert (Hpre : Forall (fun c => isDone c = false) (take i chunks)).
  { apply Forall_forall. intros c' Hin.
    apply list_elem_of_lookup in Hin as [j Hj].
    apply lookup_take_Some in Hj as [Hj Hlt].
    destruct (isDone c') eqn:Hd; [|done].
    specialize (Hlast j c' Hj Hd). lia. }
  assert (Hrun : Transfer.uploadManual data (fun offset => emit (shown offset)) ret
                   filePath w0
                 = (put_refused r,
                    set_net_cb rest
                      (set_trace
                         (trace w0 ++ chunk_events data shown (take (S i) chunks)) w0))).
  { unfold Transfer.uploadManual, bind, gets.
    replace (localFiles w0 !! filePath) with (Some file)
      by (subst w0; cbn; by rewrite lookup_insert_eq).
    fold chunks. rewrite <- (take_drop_middle chunks i c Hc) at 1.
    unfold detach.
    rewrite (uploadManual_loop_stops data shown (take i chunks) c (drop (S i) chunks)
               w0 r rest Hpre Hr).
    - rewrite (take_S_r chunks i c Hc).
      unfold put_refused. destruct (cb_response r) as [resp|]; [|done].
      by destruct (statusCode resp =? 401).
    - subst w0. cbn. rewrite length_take.
      by replace (i `min` length chunks)%nat with i by lia. }
  rewrite Hrun. done.
Qed.

Lemma upload_stops_at_first_refused_put_witness :
  let data := {| authorization := None; xActivityTag := None; url := None |} in
  let w0 := set_localFiles (<["f" := two_blocks_and_a_half]> ∅)
              (set_net_cb (replicate 1 chunk_stored ++ unauthorized :: [chunk_stored])
                 (initWorld None [] [] ∅)) in
  let run := Transfer.uploadManual data
               (fun offset => emit (shown_progress "f" 51200 offset)) ret "f" w0 in
  fst run = put_refused unauthorized /\
  trace (snd run)
  = [] ++ chunk_events data (shown_progress "f" 51200)
            (take 2 (Transfer.getFileContent two_blocks_and_a_half)) /\
  net_cb (snd run) = [chunk_stored].
Proof.
  apply (upload_stops_at_first_refused_put two_blocks_and_a_half "f"
           {| authorization := None; xActivityTag := None; url := None |}
           (shown_progress "f" 51200) 1 (initWorld None [] [] ∅) unauthorized
           [chunk_stored]).
  - vm_compute. lia.
  - reflexivity.
Defined.

(** ** Downloads append *)

Lemma append_all_lookup (localPath : string) (chunks : list (list byte))
    (files : gmap string (list byte)) :
  append_all localPath chunks files !! localPath
  = match chunks with
    | [] => files !! localPath
    | _ => Some (default [] (files !! localPath) ++ concat chunks)
    end.
Proof.
  unfold append_all. revert files.
  induction chunks as [|chunk chunks IH]; intros files; [done|].
  cbn [foldl]. rewrite IH. destruct chunks as [|chunk' chunks].
  - cbn. by rewrite lookup_insert_eq, app_nil_r.
  - rewrite lookup_insert_eq. cbn. by rewrite <- app_assoc.
Qed.

Lemma append_all_lookup_ne (localPath other : string) (chunks : list (list byte))
    (files : gmap string (list byte)) :
  other <> localPath -> append_all localPath chunks files !! other = files !! other.
Proof.
  intros Hne. unfold append_all. revert files.
  induction chunks as [|chunk chunks IH]; intros files; [done|].
  cbn [foldl]. rewrite IH. by rewrite lookup_insert_ne.
Qed.

Lemma on_data_run (localPath : string) (progressCallback : N -> option N -> M unit)
    (total : option N) (shown : N -> Event) (chunks : list (list byte)) :
  (forall offset, progressCallback offset total = emit (shown offset)) ->
  forall (offset : N) (w : World),
    Transfer.on_data localPath progressCallback total chunks offset w
    = (Ok tt,
       set_trace (trace w ++ download_events localPath shown chunks offset)
         (set_localFiles (append_all localPath chunks (localFiles w)) w)).
Proof.
  intros Hcb. induction chunks as [|chunk chunks IH]; intros offset w.
  - destruct w. cbn. unfold ret, set_trace, set_localFiles. cbn. by rewrite app_nil_r.
  - cbn [Transfer.on_data]. rewrite Hcb. unfold Transfer.appendFileSync.
    generalize (Transfer.on_data localPath progressCallback total chunks) IH.
    intros rec IHrec. run_m. rewrite IHrec.
    unfold set_trace, set_localFiles. cbn. by rewrite <- !app_assoc.
Qed.



Lemma _downloadFile_streams (fuel : nat) (w : World) (token fileID localFilePath : string)
    (total status : N) (chunks : list (list byte)) (rest : list CbReply)
    (srest : list StreamReply) :
  status <> 401 ->
  tokens_auth w = Some token ->
  net_cb w = size_reply total :: rest ->
  net_stream w = Responded status chunks None :: srest ->
  Api._downloadFile (S fuel) fileID localFilePath
    (fun p => emit (Progress localFilePath p)) w
  = (Ok (Rec true (Some true)),
     set_trace
       (trace w
        ++ [ReqFileSize (Some token) fileID;
            ReqDownload (String.substring 7 (String.length token - 7) token) fileID]
        ++ download_events localFilePath
             (shown_download localFilePath (Some total)) chunks 0)
       (set_localFiles (append_all localFilePath chunks (localFiles w))
          (set_net_cb rest (set_net_stream srest w)))).
Proof.
  intros Hstatus Htoken Hcb Hstream.
  destruct w as [ps tok cu cp ga ncb nst lf ld tr].
  cbn in Htoken, Hcb, Hstream. subst tok ncb nst.
  cbn [Api._downloadFile].
  unfold Transfer.dwl, Primitives.getFileSize, detach.
  generalize (Api._downloadFile fuel fileID localFilePath
                (fun p => emit (Progress localFilePath p))).
  intros again. run_m.
  replace (status =? 401) with false by (symmetry; by apply N.eqb_neq).
  run_m.
  rewrite (on_data_run localFilePath _ (Some total)
             (shown_download localFilePath (Some total)) chunks)
    by (intros offset; unfold shown_download; by destruct (bool_decide _)).
  lazy beta iota zeta delta
    [set_trace set_localFiles set_net_cb set_net_stream set_tokens_auth truthy
     pathStack tokens_auth creds_user creds_pass g_attempt net_cb net_stream
     localFiles localDirs trace success result from_option id].
  by rewrite <- !app_assoc.
Qed.

(** A download whose size query succeeds and whose stream ends normally
    (status other than 401) resolves with success. Every chunk of the
    stream has been appended to what the destination held before: an
    existing file is not truncated, and without chunks it is not touched or
    created. No other file changes. The progress shown for a chunk is the
    offset before that chunk, against the size the service reported. *)
Theorem download_appends_stream_to_destination :
  forall (fuel : nat) (w : World) (token fileID localFilePath : string) (total status : N)
         (chunks : list (list byte)) (rest : list CbReply) (srest : list StreamReply),
    status <> 401 ->
    let w0 := set_tokens_auth (Some token)
                (set_net_cb (size_reply total :: rest)
                   (set_net_stream (Responded status chunks None :: srest) w)) in
    let run := Api._downloadFile (S fuel) fileID localFilePath
                 (fun p => emit (Progress localFilePath p)) w0 in
    fst run = Ok (Rec true (Some true)) /\
    localFiles (snd run) !! localFilePath
    = match chunks with
      | [] => localFiles w !! localFilePath
      | _ => Some (default [] (localFiles w !! localFilePath) ++ concat chunks)
      end /\
    (forall other, other <> localFilePath ->
                   localFiles (snd run) !! other = localFiles w !! other) /\
    trace (snd run)
    = trace w
      ++ [ReqFileSize (Some token) fileID;
          ReqDownload (String.substring 7 (String.length token - 7) token) fileID]
      ++ download_events localFilePath (shown_download localFilePath (Some total)) chunks 0.
Proof.
  intros fuel w token fileID localFilePath total status chunks rest srest Hstatus w0 run.
  subst run.
  rewrite (_downloadFile_streams fuel w0 token fileID localFilePath total status chunks
             rest srest Hstatus eq_refl eq_refl eq_refl).
  cbn [fst snd localFiles set_trace set_localFiles trace].
  split; [done|]. split; [apply append_all_lookup|].
  split; [|done]. intros other Hne. by apply append_all_lookup_ne.
Qed.

Lemma download_appends_stream_to_destination_witness :
  let w0 := set_tokens_auth (Some "Bearer T")
              (set_net_cb [size_reply 3]
                 (set_net_stream [Responded 200 [[x01; x02]; [x03]] None]
                    (initWorld None [] [] {["out.bin" := [x00]]}))) in
  let run := Api._downloadFile 1 "file-id" "out.bin"
               (fun p => emit (Progress "out.bin" p)) w0 in
  fst run = Ok (Rec true (Some true)) /\
  localFiles (snd run) !! "out.bin" = Some ([x00] ++ [x01; x02; x03]).
Proof.
  assert (Hstatus : (200 : N) <> 401) by discriminate.
  destruct (download_appends_stream_to_destination 0
              (initWorld None [] [] {["out.bin" := [x00]]}) "Bearer T" "file-id" "out.bin"
              3 200 [[x01; x02]; [x03]] [] [] Hstatus) as (Hok & Hfile & _).
  split; [exact Hok|]. rewrite Hfile. reflexivity.
Defined.

(** ** From login to the download request *)



(** ** The operations of the bridge leave the path stack alone *)

Lemma same_stack__createDirectory (fuel : nat) (dirName : string) :
  follows same_stack (Api._createDirectory fuel dirName).
Proof.
  induction fuel as [|fuel IH]; cbn [Api._createDirectory]; [same_stack_steps|].
  use @follows_bind; [apply same_stack_currentPath|intros currentPath].
  unfold Primitives.mkdir. same_stack_steps; by apply same_stack_authRetry.
Qed.

Lemma same_stack_createDirectory (fuel : nat) (dirName : string) :
  follows same_stack (Api.createDirectory fuel dirName).
Proof.
  unfold Api.createDirectory.
  use @follows_try_catch; [|intros e; same_stack_steps].
  use @follows_retryLimited. apply same_stack__createDirectory.
Qed.

Lemma same_stack_rm (authToken : option string) (entryID : string) :
  follows same_stack (Primitives.rm authToken entryID).
Proof. unfold Primitives.rm, Primitives.multipartMixed. same_stack_steps. Qed.

Lemma same_stack__removeFile (fuel : nat) (fileID : string) :
  follows same_stack (Api._removeFile fuel fileID).
Proof.
  induction fuel as [|fuel IH]; cbn [Api._removeFile]; [same_stack_steps|].
  use @follows_bind; [same_stack_steps|intros auth].
  use @follows_bind; [apply same_stack_rm|intros res].
  same_stack_steps; by apply same_stack_authRetry.
Qed.

Lemma same_stack_removeFile (fuel : nat) (fileID : string) :
  follows same_stack (Api.removeFile fuel fileID).
Proof.
  unfold Api.removeFile.
  use @follows_try_catch; [|intros e; same_stack_steps].
  use @follows_retryLimited. apply same_stack__removeFile.
Qed.

Lemma same_stack_uploadBytes (data : UploadData) (c : Chunk) :
  follows same_stack (Transfer.uploadBytes data c).
Proof. unfold Transfer.uploadBytes. same_stack_steps. Qed.

Section SameStackUpload.
Context {R : Type}.
Variable progressCallback : N -> M unit.
Variable doneCallback : PrimResult bool -> M R.
Hypothesis progress_same_stack : forall offset, follows same_stack (progressCallback offset).
Hypothesis done_same_stack : forall res, follows same_stack (doneCallback res).

Lemma same_stack_uploadManual_loop (data : UploadData) (chunks : list Chunk) :
  follows same_stack (Transfer.uploadManual_loop data progressCallback doneCallback chunks).
Proof.
  induction chunks as [|c chunks IH]; cbn [Transfer.uploadManual_loop]; [same_stack_steps|].
  use @follows_bind; [apply progress_same_stack|intros _].
  use @follows_bind; [apply same_stack_uploadBytes|intros uploadResult].
  same_stack_steps; first [apply done_same_stack|apply IH].
Qed.

Lemma same_stack_uploadManual (data : UploadData) (filePath : string) :
  follows same_stack (Transfer.uploadManual data progressCallback doneCallback filePath).
Proof.
  unfold Transfer.uploadManual.
  use @follows_bind; [same_stack_steps|intros file].
  destruct file as [content|]; [|same_stack_steps].
  apply follows_detach, same_stack_uploadManual_loop.
Qed.

Lemma same_stack_upl (authToken : option string) (subPath pathToFile : string) :
  follows same_stack
    (Transfer.upl authToken subPath pathToFile progressCallback doneCallback).
Proof.
  unfold Transfer.upl, Transfer.startActivity, Transfer.startUpload.
  same_stack_steps;
    first [apply done_same_stack|apply same_stack_uploadManual_loop
          |apply same_stack_uploadManual].
Qed.
End SameStackUpload.

Lemma same_stack__uploadFile (filePath : string) (progressCallback : Percentage -> M unit)
    (uploadFile : M (option bool)) :
  (forall p, follows same_stack (progressCallback p)) ->
  follows same_stack uploadFile ->
  follows same_stack (Api._uploadFile filePath progressCallback uploadFile).
Proof.
  intros Hcb Hagain. unfold Api._uploadFile.
  use @follows_bind; [apply same_stack_currentPath|intros currentPath].
  use @follows_bind; [same_stack_steps|intros file].
  destruct file as [content|]; [|same_stack_steps].
  use @follows_bind; [same_stack_steps|intros auth].
  use @follows_bind; [|intros settled; same_stack_steps].
  apply same_stack_upl.
  - intros offset. by destruct (_ =? _).
  - intros res. same_stack_steps.
Qed.

Lemma same_stack_uploadFile (fuel : nat) (filePath : string)
    (progressCallback : Percentage -> M unit) :
  (forall p, follows same_stack (progressCallback p)) ->
  follows same_stack (Api.uploadFile fuel filePath progressCallback).
Proof.
  intros Hcb. induction fuel as [|fuel IH]; cbn [Api.uploadFile]; [same_stack_steps|].
  use @follows_try_catch; [|intros e; same_stack_steps].
  use @follows_retryLimited.
  by apply same_stack__uploadFile.
Qed.

(** Whatever the service answers and however the operation ends (result,
    exception, hang), none of [authenticate], [listFiles],
    [createDirectory], [removeFile], [uploadFile] and [downloadFile] changes
    the path stack, and none removes anything from the log of requests made
    so far, provided the caller's progress callback does neither. *)
Theorem api_operations_keep_path_stack :
  forall (fuel : nat) (username password : option string)
         (dirName fileID filePath localFilePath : string)
         (progressCallback : Percentage -> M unit),
    (forall p, follows same_stack (progressCallback p)) ->
    follows same_stack (authenticate username password) /\
    follows same_stack (Api.listFiles fuel) /\
    follows same_stack (Api.createDirectory fuel dirName) /\
    follows same_stack (Api.removeFile fuel fileID) /\
    follows same_stack (Api.uploadFile fuel filePath progressCallback) /\
    follows same_stack (Api.downloadFile fuel fileID localFilePath progressCallback).
Proof.
  intros fuel username password dirName fileID filePath localFilePath progressCallback Hcb.
  split; [apply same_stack_authenticate|].
  split; [apply same_stack_listFiles|].
  split; [apply same_stack_createDirectory|].
  split; [apply same_stack_removeFile|].
  split; [by apply same_stack_uploadFile|by apply same_stack_downloadFile].
Qed.

Lemma api_operations_keep_path_stack_witness :
  follows same_stack (Api.removeFile 2 "entry") /\
  follows same_stack
    (Api.uploadFile 2 "a.bin" (fun p => emit (Progress "a.bin" p))).
Proof.
  destruct (api_operations_keep_path_stack 2 None None "dir" "entry" "a.bin" "b.bin"
              (fun p => emit (Progress "a.bin" p))
              (fun p => same_stack_emit (Progress "a.bin" p)))
    as (_ & _ & _ & Hrm & Hup & _).
  split; [exact Hrm|exact Hup].
Defined.

(** ** An upload replayed after a session expiry *)

Lemma callAbstracted_first_stop {D} (tryLimit : nat) (op : M (OpResult D))
    (fuel : nat) (w w' : World) (o : outcome (OpResult D))
    (o' : outcome (bool * option D * nat)) :
  is_Some (g_attempt w) ->
  op w = (o, w') -> stopped o o' ->
  Supervisor.callAbstracted tryLimit op (S fuel) 0 w = (o', w').
Proof.
  intros [v Hv] Hop Hstop. rewrite callAbstracted_unfold.
  change (tryLimit <? 0)%nat with false. cbv iota.
  unfold bind, gets. rewrite Hv, Hop.
  destruct o as [r|e|e| |], o' as [r'|e'|e'| |]; cbn in Hstop; by subst.
Qed.

Lemma uploadFile_all_stored (fuel : nat) (filePath : string) (file : list byte)
    (tag loc : string) (w : World) (rest : list CbReply) :
  localFiles w !! filePath = Some file ->
  is_Some (g_attempt w) ->
  net_cb w = activity_started tag :: upload_opened loc
             :: replicate (length (Transfer.getFileContent file)) chunk_stored ++ rest ->
  Api.uploadFile (S fuel) filePath (fun p => emit (Progress filePath p)) w
  = ((if N.of_nat (length file) mod 20480 =? 0 then Hang else Ok (Some true)),
     uploaded filePath tag loc file rest w).
Proof.
  intros Hfile Hattempt Hnet.
  pose proof (_uploadFile_all_stored filePath
                (Api.uploadFile fuel filePath (fun p => emit (Progress filePath p)))
                file tag loc w rest Hfile Hnet) as Hop.
  rewrite (getFileContent_done file) in Hop. fold (uploaded filePath tag loc file rest w) in Hop.
  cbn [Api.uploadFile].
  unfold try_catch, Supervisor.retryLimited. unfold bind at 1.
  change (10 + 2)%nat with (S 11).
  destruct (N.of_nat (length file) mod 20480 =? 0); cbn [negb] in Hop.
  - by rewrite (callAbstracted_first_stop 10 _ 11 w _ Hang Hang Hattempt Hop).
  - by rewrite (callAbstracted_first_success 10 _ 11 w _ (Some true) Hattempt Hop).
Qed.

Lemma _uploadFile_expired_at_init (filePath : string) (self : M (option bool))
    (file : list byte) (tag token : string) (w w' : World) (rest : list CbReply)
    (o : outcome (option bool)) :
  localFiles w !! filePath = Some file ->
  net_cb w = activity_started tag :: unauthorized :: logged_in token :: rest ->
  self (relogged filePath tag token rest w) = (o, w') ->
  Api._uploadFile filePath (fun p => emit (Progress filePath p)) self w
  = (replayed o, w').
Proof.
  intros Hfile Hnet Hself.
  unfold Api._uploadFile. unfold bind at 1. rewrite currentPath_eq.
  unfold bind at 1, gets at 1. unfold Transfer.stat_size. rewrite Hfile.
  unfold Transfer.upl, Transfer.startActivity, Transfer.startUpload.
  run_m. rewrite Hnet. run_m.
  unfold Supervisor.authRetry, authenticate, Primitives.login, detach. run_m.
  match goal with
  | |- context [self ?w1] =>
      replace w1 with (relogged filePath tag token rest w)
  end.
  - rewrite Hself. by destruct o.
  - unfold relogged. destruct w as [ps tok cu cp ga ncb nst lf ld tr].
    lazy beta iota zeta delta
      [set_trace set_net_cb set_tokens_auth set_creds
       pathStack tokens_auth creds_user creds_pass g_attempt net_cb net_stream
       localFiles localDirs trace working_folder js_string j_id_token from_option id].
    by rewrite <- !app_assoc.
Qed.

Lemma put_bytes_uploaded (filePath tag loc : string) (file : list byte)
    (rest : list CbReply) (w : World) :
  put_bytes (trace (uploaded filePath tag loc file rest w)) = put_bytes (trace w) ++ file.
Proof.
  unfold uploaded. cbn [trace set_net_cb set_trace].
  rewrite put_bytes_app.
  change (ReqActivityStart ?a :: ReqUploadInit ?b ?c ?d ?e :: ?l)
    with ([ReqActivityStart a; ReqUploadInit b c d e] ++ l).
  by rewrite put_bytes_app, put_bytes_chunk_events, getFileContent_sent.
Qed.

(** The request that opens an upload of a local file is answered 401, the
    login that follows succeeds, and from then on the service stores
    whatever it is sent. [_uploadFile] logs in again and calls the public
    [uploadFile]; what that call returns is a bare value, which the
    supervisor reads as a failure. Where the identifier [attempt] is bound
    and the size of the file is no multiple of 20480, the replay uploads
    the whole file, the supervisor then runs the upload once more, and the
    file has been sent twice when [uploadFile] returns [true]. For a
    multiple of 20480 the replay sends the file once and never settles, so
    that [uploadFile] never returns. Where [attempt] is not bound,
    [uploadFile] throws ReferenceError before any request. *)
Theorem upload_replay_after_expiry_is_read_as_failure :
  forall (fuel : nat) (w : World) (filePath : string) (file : list byte)
         (tag1 token tag2 loc2 tag3 loc3 : string) (rest : list CbReply),
    let n := length (Transfer.getFileContent file) in
    let second := activity_started tag3 :: upload_opened loc3
                  :: replicate n chunk_stored ++ rest in
    localFiles w !! filePath = Some file ->
    net_cb w
    = activity_started tag1 :: unauthorized :: logged_in token
      :: activity_started tag2 :: upload_opened loc2 :: replicate n chunk_stored
      ++ second ->
    let run := Api.uploadFile (S (S fuel)) filePath
                 (fun p => emit (Progress filePath p)) w in
    match g_attempt w with
    | None => run = (Throw ReferenceError, w)
    | Some _ =>
        if N.of_nat (length file) mod 20480 =? 0
        then fst run = Hang /\
             put_bytes (trace (snd run)) = put_bytes (trace w) ++ file /\
             net_cb (snd run) = second
        else fst run = Ok (Some true) /\
             put_bytes (trace (snd run)) = put_bytes (trace w) ++ file ++ file /\
             net_cb (snd run) = rest
    end.
Proof.
  intros fuel w filePath file tag1 token tag2 loc2 tag3 loc3 rest n second
         Hfile Hnet run.
  destruct (g_attempt w) as [v|] eqn:Hg.
  2: { destruct (public_operations_need_attempt (S fuel) w filePath ""
                   (fun p => emit (Progress filePath p)) Hg) as (_ & _ & _ & Hup & _).
       exact Hup. }
  assert (Hattempt : is_Some (g_attempt w)) by (by exists v).
  set (script2 := activity_started tag2 :: upload_opened loc2
                  :: replicate n chunk_stored ++ second) in Hnet.
  set (w1 := uploaded filePath tag2 loc2 file second
               (relogged filePath tag1 token script2 w)).
  set (w2 := uploaded filePath tag3 loc3 file rest w1).
  assert (Hunfold : run
                    = try_catch
                        (Supervisor.retryLimited 10 "upload file"
                           (Api._uploadFile filePath (fun p => emit (Progress filePath p))
                              (Api.uploadFile (S fuel) filePath
                                 (fun p => emit (Progress filePath p)))))
                        raise w) by reflexivity.
  assert (Hfirst : Api._uploadFile filePath (fun p => emit (Progress filePath p))
                     (Api.uploadFile (S fuel) filePath
                        (fun p => emit (Progress filePath p))) w
                   = (replayed (if N.of_nat (length file) mod 20480 =? 0
                                then Hang else Ok (Some true)), w1)).
  { apply (_uploadFile_expired_at_init filePath _ file tag1 token w w1 script2 _
             Hfile Hnet).
    by apply uploadFile_all_stored. }
  destruct (N.of_nat (length file) mod 20480 =? 0) eqn:Hsize; cbn [replayed] in Hfirst.
  - assert (Hrun : run = (Hang, w1)).
    { rewrite Hunfold. unfold try_catch, Supervisor.retryLimited. unfold bind at 1.
      change (10 + 2)%nat with (S 11).
      by rewrite (callAbstracted_first_stop 10 _ 11 w w1 Hang Hang Hattempt Hfirst). }
    rewrite Hrun. cbn [fst snd]. split; [done|]. split; [|done].
    subst w1. rewrite put_bytes_uploaded.
    unfold relogged. cbn [trace set_tokens_auth set_net_cb set_trace].
    rewrite put_bytes_app. cbn [put_bytes omap put_content concat].
    by rewrite app_nil_r.
  - assert (Hsecond : Api._uploadFile filePath (fun p => emit (Progress filePath p))
                        (Api.uploadFile (S fuel) filePath
                           (fun p => emit (Progress filePath p))) w1
                      = (Ok (Rec true (Some true)), w2)).
    { rewrite (_uploadFile_all_stored filePath _ file tag3 loc3 w1 rest); [|done..].
      rewrite (getFileContent_done file). by rewrite Hsize. }
    set (ws := fun k : nat => match k with 0%nat => w | 1%nat => w1 | _ => w2 end).
    assert (Hcall : Supervisor.callAbstracted 10
                      (Api._uploadFile filePath (fun p => emit (Progress filePath p))
                         (Api.uploadFile (S fuel) filePath
                            (fun p => emit (Progress filePath p))))
                      (10 + 2) 0 w
                    = (Ok (true, Some true, 2%nat), w2)).
    { apply (callAbstracted_success 10 _ ws 1); [lia| | |exact Hsecond].
      - intros j Hj. assert (j = 0%nat) as -> by lia.
        exists (Value (Some true)). by split.
      - intros j Hj. by destruct j as [|[|j]]. }
    assert (Hrun : run = (Ok (Some true), w2)).
    { rewrite Hunfold. unfold try_catch, Supervisor.retryLimited. unfold bind at 1.
      by rewrite Hcall. }
    rewrite Hrun. cbn [fst snd]. split; [done|]. split; [|done].
    subst w2 w1. rewrite !put_bytes_uploaded.
    unfold relogged. cbn [trace set_tokens_auth set_net_cb set_trace].
    rewrite put_bytes_app. cbn [put_bytes omap put_content concat].
    by rewrite app_nil_r, <- app_assoc.
Qed.

Lemma upload_replay_after_expiry_is_read_as_failure_witness :
  let file := [x01; x02; x03] in
  let n := length (Transfer.getFileContent file) in
  let w := initWorld (Some 1)
             (activity_started "a1" :: unauthorized :: logged_in "T"
              :: activity_started "a2" :: upload_opened "u2" :: replicate n chunk_stored
              ++ activity_started "a3" :: upload_opened "u3" :: replicate n chunk_stored
              ++ [])
             [] {["f" := file]} in
  let run := Api.uploadFile 2 "f" (fun p => emit (Progress "f" p)) w in
  fst run = Ok (Some true) /\
  put_bytes (trace (snd run)) = [x01; x02; x03; x01; x02; x03].
Proof.
  intros file n w run.
  pose proof (upload_replay_after_expiry_is_read_as_failure 0 w "f" file
                "a1" "T" "a2" "u2" "a3" "u3" [] eq_refl eq_refl) as Hrun.
  change (g_attempt w) with (Some 1) in Hrun.
  change (N.of_nat (length file) mod 20480 =? 0) with false in Hrun.
  cbv iota zeta in Hrun. destruct Hrun as (Hok & Hbytes & _).
  split; [exact Hok|exact Hbytes].
Defined.

(** ** Uploading what is not a file *)

Lemma _uploadFile_missing (filePath : string) (progressCallback : Percentage -> M unit)
    (self : M (option bool)) (w : World) :
  localFiles w !! filePath = None ->
  filePath ∉ localDirs w ->
  Api._uploadFile filePath progressCallback self w = (Ok (Rec false None), w).
Proof.
  intros Hfile Hdir.
  unfold Api._uploadFile. unfold bind at 1. rewrite currentPath_eq.
  unfold bind, gets, Transfer.stat_size. rewrite Hfile.
  by rewrite (bool_decide_eq_false_2 _ Hdir).
Qed.

(** Uploading a path that does not exist locally, neither as a file nor as
    a directory, sends nothing: [_uploadFile] resolves with a failure
    before any request. Where the identifier [attempt] is bound, the
    supervisor takes that for a failed attempt eleven times over and
    [uploadFile] throws the error that names the action; where it is not,
    [uploadFile] throws ReferenceError. Either way the world is the one it
    started in. *)
Theorem upload_of_missing_path_sends_no_request :
  forall (fuel : nat) (w : World) (filePath : string)
         (progressCallback : Percentage -> M unit),
    localFiles w !! filePath = None ->
    filePath ∉ localDirs w ->
    (forall self,
        Api._uploadFile filePath progressCallback self w = (Ok (Rec false None), w)) /\
    Api.uploadFile (S fuel) filePath progressCallback w
    = match g_attempt w with
      | Some _ => (Throw (Error "tried to upload file 10 times and failed"), w)
      | None => (Throw ReferenceError, w)
      end.
Proof.
  intros fuel w filePath progressCallback Hfile Hdir.
  split; [intros self; by apply _uploadFile_missing|].
  destruct (g_attempt w) as [v|] eqn:Hg.
  - assert (Hcall : Supervisor.callAbstracted 10
                      (Api._uploadFile filePath progressCallback
                         (Api.uploadFile fuel filePath progressCallback))
                      (10 + 2) 0 w
                    = (Ok (false, None, 11%nat), w)).
    { apply (callAbstracted_all_fail 10 _ (fun _ => w)); [| |lia|lia].
      - intros i Hi. by apply _uploadFile_missing.
      - intros i Hi. by exists v. }
    cbn [Api.uploadFile]. unfold try_catch, Supervisor.retryLimited. unfold bind at 1.
    by rewrite Hcall.
  - destruct (public_operations_need_attempt fuel w filePath "" progressCallback Hg)
      as (_ & _ & _ & Hup & _).
    exact Hup.
Qed.

Lemma upload_of_missing_path_sends_no_request_witness :
  Api.uploadFile 1 "nowhere" (fun p => emit (Progress "nowhere" p))
    (initWorld (Some 0) [] [] ∅)
  = (Throw (Error "tried to upload file 10 times and failed"),
     initWorld (Some 0) [] [] ∅).
Proof.
  assert (Hfile : localFiles (initWorld (Some 0) [] [] ∅) !! "nowhere" = None)
    by (vm_compute; reflexivity).
  assert (Hdir : "nowhere" ∉ localDirs (initWorld (Some 0) [] [] ∅))
    by (cbn; set_solver).
  exact (proj2 (upload_of_missing_path_sends_no_request 0 (initWorld (Some 0) [] [] ∅)
                  "nowhere" (fun p => emit (Progress "nowhere" p)) Hfile Hdir)).
Defined.



(** ** Changing the working folder by name *)

Lemma listFiles_lists_after_expiries (k : nat) (w : World) (token : string)
    (items : list RawItem) (rest : list CbReply) :
  is_Some (g_attempt w) ->
  net_cb w = expired_sessions k token ++ listing items :: rest ->
  exists w',
    Api.listFiles (S k) w = (Ok (Some (to_entries items)), w') /\
    pathStack w' = pathStack w.
Proof.
  intros Hattempt Hnet.
  destruct (_listFiles_replays k w token items rest Hnet)
    as (w' & Hrun & _ & _ & Hstack & _).
  exists w'. split; [|done].
  unfold Api.listFiles, try_catch, Supervisor.retryLimited, bind.
  change (10 + 2)%nat with (S 11).
  by rewrite (callAbstracted_first_success 10 _ 11 w w' _ Hattempt Hrun).
Qed.

Lemma find_to_entries (folderName : string) (items : list RawItem) :
  List.find (fun item => String.eqb (name item) folderName && isDir item)
            (to_entries items)
  = option_map
      (fun item => {| name := raw_name item; id := raw_id item;
                      isDir := String.eqb (mimeType item) "application/x.wd.dir" |})
      (List.find (fun item => String.eqb (raw_name item) folderName
                              && String.eqb (mimeType item) "application/x.wd.dir")
                 items).
Proof.
  unfold to_entries. induction items as [|item items IH]; [done|].
  cbn [map List.find name isDir]. rewrite IH.
  by destruct (String.eqb (raw_name item) folderName
               && String.eqb (mimeType item) "application/x.wd.dir").
Qed.

(** [seekAndEnter] on a listing that arrives, at once or after any number
    of session expiries that are each followed by a successful login.
    Where the identifier [attempt] is bound, it pushes the id of the first
    entry that has the name and is a directory, and returns [true]; an
    entry of that name that is a file is passed over; with no such
    directory it returns [false] and the path stack stays as it was. Where
    [attempt] is not bound, [listFiles] throws ReferenceError before any
    request, and so does [seekAndEnter], in the world it started in. *)
Theorem seekAndEnter_enters_first_directory_of_that_name :
  forall (k : nat) (w : World) (folderName token : string) (items : list RawItem)
         (rest : list CbReply),
    let w0 := set_net_cb (expired_sessions k token ++ listing items :: rest) w in
    let run := Shell.seekAndEnter (S k) folderName w0 in
    match g_attempt w with
    | None => run = (Throw ReferenceError, w0)
    | Some _ =>
        match List.find (fun item => String.eqb (raw_name item) folderName
                                     && String.eqb (mimeType item) "application/x.wd.dir")
                        items with
        | Some item =>
            fst run = Ok true /\ pathStack (snd run) = pathStack w ++ [raw_id item]
        | None => fst run = Ok false /\ pathStack (snd run) = pathStack w
        end
    end.
Proof.
  intros k w folderName token items rest w0 run.
  destruct (g_attempt w) as [v|] eqn:Hg.
  - assert (Hattempt : is_Some (g_attempt w0)) by (by exists v).
    destruct (listFiles_lists_after_expiries k w0 token items rest Hattempt eq_refl)
      as (w' & Hlist & Hstack).
    assert (Hrun : run
                   = match List.find (fun item => String.eqb (name item) folderName
                                                  && isDir item)
                                     (to_entries items) with
                     | None => ret false
                     | Some targetDir =>
                         PathStack.enterDirectory (Some (id targetDir)) ;;; ret true
                     end w').
    { subst run. unfold Shell.seekAndEnter. unfold bind at 1. by rewrite Hlist. }
    rewrite Hrun, find_to_entries.
    destruct (List.find _ items) as [item|]; cbn; by rewrite Hstack.
  - subst run. unfold Shell.seekAndEnter. unfold bind at 1.
    destruct (public_operations_need_attempt (S k) w0 "" "" (fun _ => ret tt) Hg)
      as (Hlist & _).
    by rewrite Hlist.
Qed.

(** [setPath] forgets the stack: afterwards it holds the given folder and
    nothing else, and it is empty, with the working folder back at the
    root, when the argument is [undefined]. *)
Theorem setPath_forgets_the_stack :
  forall (w : World) (path : option string),
    let run := PathStack.setPath path w in
    fst run = Ok tt /\
    pathStack (snd run) = option_list path /\
    fst (PathStack.getCurrentFolder (snd run)) = Ok path /\
    fst (PathStack.currentPath (snd run)) = Ok (default "root" path) /\
    trace (snd run) = trace w /\
    tokens_auth (snd run) = tokens_auth w.
Proof.
  intros w path run. subst run.
  rewrite getCurrentFolder_eq, currentPath_eq.
  unfold working_folder. by destruct path as [folder|].
Qed.

(** ** Recursive upload and the path stack *)

Lemma try_catch_raise_Ok_inv {A} (m : M A) (w w' : World) (a : A) :
  try_catch m raise w = (Ok a, w') -> m w = (Ok a, w').
Proof. unfold try_catch, raise. by destruct (m w) as [[x| | | |] w1]. Qed.

Section OkData.
Context {D : Type}.
Variable tryLimit : nat.
Variable op : M (OpResult D).
Variable P : option D -> Prop.
Hypothesis op_data : forall w w' d, op w = (Ok (Rec true d), w') -> P d.

Lemma callAbstracted_Ok_data (fuel n k : nat) (w w' : World) (d : option D) :
  Supervisor.callAbstracted tryLimit op fuel n w = (Ok (true, d, k), w') -> P d.
Proof.
  revert n w. induction fuel as [|fuel IH]; intros n w; [done|].
  cbn [Supervisor.callAbstracted].
  destruct (tryLimit <? n)%nat; [done|].
  intros Hrun.
  apply bind_Ok_inv in Hrun as (attempt & w0 & Hattempt & Hrun).
  injection Hattempt as <- <-.
  destruct (g_attempt w) as [v|]; [|done].
  apply bind_Ok_inv in Hrun as (r & w1 & Hop & Hrun).
  apply bind_Ok_inv in Hrun as (ok & w2 & Hread & Hrun).
  destruct r as [s d'|[v'|]]; cbn in Hread; try done;
    injection Hread as <- <-; cbn [negb] in Hrun.
  - destruct s; cbn [negb] in Hrun.
    + injection Hrun as <- _ <-. by apply (op_data w w1).
    + by apply (IH _ _ Hrun).
  - by apply (IH _ _ Hrun).
Qed.

Lemma retryLimited_Ok_data (actionName : string) (w w' : World) (d : option D) :
  Supervisor.retryLimited tryLimit actionName op w = (Ok d, w') -> P d.
Proof.
  unfold Supervisor.retryLimited. intros Hrun.
  apply bind_Ok_inv in Hrun as ([[ok d'] k] & w1 & Hcall & Hrun).
  destruct ok; [|done]. injection Hrun as <- <-.
  by apply (callAbstracted_Ok_data _ _ _ _ _ _ Hcall).
Qed.
End OkData.

Lemma _createDirectory_Ok_data (fuel : nat) (dirName : string) :
  forall (w w' : World) (d : option string),
    Api._createDirectory fuel dirName w = (Ok (Rec true d), w') -> is_Some d.
Proof.
  induction fuel as [|fuel IH]; intros w w' d; [done|].
  cbn [Api._createDirectory]. unfold bind at 1. rewrite currentPath_eq.
  unfold bind at 1, gets at 1. intros Hrun.
  apply bind_Ok_inv in Hrun as (res & w1 & Hmkdir & Hrun).
  assert (Hres : truthy (success res) = true -> is_Some (result res)).
  { revert Hmkdir. unfold Primitives.mkdir. run_m.
    destruct (net_cb w) as [|r rest]; [done|]. cbn.
    destruct (cb_response r) as [resp|]; [|done]. cbn.
    destruct (statusCode resp =? 401); [by intros [= <- _]|].
    destruct (cb_error r); [by intros [= <- _]|].
    destruct (location resp); [|done]. intros [= <- _]. by eexists. }
  destruct (truthy (success res)).
  { injection Hrun as <- _. by apply Hres. }
  destruct (bool_decide (is_Some (error res))); [done|].
  unfold Supervisor.authRetry in Hrun.
  apply bind_Ok_inv in Hrun as (user & w2 & _ & Hrun).
  apply bind_Ok_inv in Hrun as (pass & w3 & _ & Hrun).
  apply bind_Ok_inv in Hrun as (logged & w4 & _ & Hrun).
  by apply (IH _ _ _ Hrun).
Qed.

Lemma createDirectory_Ok_inv (fuel : nat) (dirName : string) (w w' : World)
    (d : option string) :
  Api.createDirectory fuel dirName w = (Ok d, w') ->
  is_Some d /\ pathStack w' = pathStack w.
Proof.
  intros Hrun. split.
  - unfold Api.createDirectory in Hrun. apply try_catch_raise_Ok_inv in Hrun.
    apply (retryLimited_Ok_data 10 _ is_Some (_createDirectory_Ok_data fuel dirName)
             _ _ _ _ Hrun).
  - pose proof (same_stack_createDirectory fuel dirName w) as [Hs _].
    by rewrite Hrun in Hs.
Qed.

Section UploadStack.
Variable readdirSync : string -> list string.
Variable isDirectory : string -> bool.

Lemma createFolders_Ok_inv (fuel : nat) (folderList : list string) :
  forall (w w' : World) (idList : list (option string)),
    Shell.createFolders fuel folderList w = (Ok idList, w') ->
    Forall is_Some idList /\ pathStack w' = pathStack w.
Proof.
  induction folderList as [|folder folderList IH]; intros w w' idList.
  - intros [= <- <-]. by split.
  - cbn [Shell.createFolders]. intros Hrun.
    apply bind_Ok_inv in Hrun as (directoryID & w1 & Hcreate & Hrun).
    apply bind_Ok_inv in Hrun as (ids & w2 & Hrest & Hrun).
    injection Hrun as <- <-.
    apply createDirectory_Ok_inv in Hcreate as [Hid Hs1].
    apply IH in Hrest as [Hids Hs2].
    split; [by constructor|congruence].
Qed.

Lemma same_stack_upload_files (fuel : nat) (local : string) (fileList : list string) :
  follows same_stack
    (Shell.for_of fileList (fun file =>
       try_catch
         (Api.uploadFile fuel (Shell.path_join local file)
            (fun progress => emit (Progress file progress)) ;;;
          ret tt)
         (fun _ => ret tt))).
Proof.
  use @follows_for_of. intros file.
  use @follows_try_catch; [|intros e; same_stack_steps].
  use @follows_bind; [|intros r; same_stack_steps].
  apply same_stack_uploadFile. intros p. apply same_stack_emit.
Qed.

Lemma upload_children_Ok_stack (fuel : nat) (local : string) :
  (forall child parent w w',
      Shell.uploadFolder readdirSync isDirectory fuel child parent w = (Ok tt, w') ->
      pathStack w' = pathStack w ++ option_list parent) ->
  forall (children : list (string * option string)) (w w' : World),
    Forall (fun child => is_Some child.2) children ->
    Shell.for_of children (fun child =>
      Shell.uploadFolder readdirSync isDirectory fuel
        (Shell.path_join local child.1) child.2 ;;;
      PathStack.enterParentDirectory ;;;
      ret tt) w = (Ok tt, w') ->
    pathStack w' = pathStack w.
Proof.
  intros IHfuel children. induction children as [|[folder directoryID] children IH];
    intros w w' Hids; cbn [Shell.for_of].
  - by intros [= <-].
  - intros Hrun. apply Forall_cons in Hids as [Hid Hids].
    cbn [snd] in Hid. destruct Hid as [dirID ->]. cbn [fst snd] in Hrun.
    apply bind_Ok_inv in Hrun as ([] & w3 & Hchild & Hrun).
    apply bind_Ok_inv in Hchild as ([] & w1 & Hup & Hchild).
    apply bind_Ok_inv in Hchild as (popped & w2 & Hpop & Hret).
    injection Hret as <-.
    apply IHfuel in Hup. cbn [option_list snd] in Hup.
    rewrite enterParentDirectory_eq, Hup, length_app, Nat.add_1_r in Hpop.
    cbn in Hpop. rewrite Nat.sub_0_r, take_app_length in Hpop.
    injection Hpop as _ <-.
    by rewrite (IH _ _ Hids Hrun).
Qed.

Lemma uploadFolder_Ok_stack (fuel : nat) :
  forall (local : string) (parent : option string) (w w' : World),
    Shell.uploadFolder readdirSync isDirectory fuel local parent w = (Ok tt, w') ->
    pathStack w' = pathStack w ++ option_list parent.
Proof.
  induction fuel as [|fuel IH]; intros local parent w w'; [done|].
  cbn [Shell.uploadFolder]. intros Hrun.
  apply bind_Ok_inv in Hrun as ([] & w1 & Henter & Hrun).
  apply enterDirectory_Ok_inv in Henter as [_ Hs1].
  apply bind_Ok_inv in Hrun as (idList & w2 & Hcreate & Hrun).
  apply createFolders_Ok_inv in Hcreate as [Hids Hs2].
  apply bind_Ok_inv in Hrun as ([] & w3 & Hfiles & Hrun).
  pose proof (same_stack_upload_files fuel local
                (List.filter (fun entry => negb (isDirectory (local +:+ "/" +:+ entry)))
                             (readdirSync local)) w2) as [Hs3 _].
  rewrite Hfiles in Hs3. cbn [snd] in Hs3.
  apply (upload_children_Ok_stack fuel local IH) in Hrun.
  - rewrite Hrun, Hs3, Hs2, Hs1. by destruct parent.
  - apply Forall_forall. intros [folder directoryID] Hin.
    apply elem_of_zip_r in Hin. cbn.
    by apply (proj1 (Forall_forall _ _) Hids).
Qed.
End UploadStack.

Lemma mkdir_trace (auth : option string) (subPath folderName : string) (w : World) :
  trace (snd (Primitives.mkdir auth subPath folderName w))
  = trace w ++ [ReqMkdir auth subPath folderName].
Proof.
  unfold Primitives.mkdir. run_m.
  destruct (net_cb w) as [|r rest] eqn:Hnet; cbn; rewrite ?Hnet; [done|].
  destruct (cb_response r) as [resp|]; cbn; [|done].
  destruct (statusCode resp =? 401); cbn; [done|].
  destruct (cb_error r); cbn; [done|].
  by destruct (location resp).
Qed.

Lemma _createDirectory_first_request (fuel : nat) (dirName : string) (w : World) :
  exists later,
    trace (snd (Api._createDirectory (S fuel) dirName w))
    = trace w ++ ReqMkdir (tokens_auth w) (working_folder w) dirName :: later.
Proof.
  cbn [Api._createDirectory]. unfold bind at 1. rewrite currentPath_eq.
  unfold bind at 1, gets at 1. unfold bind at 1.
  pose proof (mkdir_trace (tokens_auth w) (working_folder w) dirName w) as Hmkdir.
  destruct (Primitives.mkdir (tokens_auth w) (working_folder w) dirName w)
    as [[res| | | |] w1]; cbn [snd] in Hmkdir |- *;
    try (exists []; exact Hmkdir).
  assert (Hrest : follows same_stack
                    (if truthy (success res) then ret (Rec true (result res))
                     else if bool_decide (is_Some (error res)) then ret (Rec false None)
                     else Supervisor.authRetry (Api._createDirectory fuel dirName))).
  { same_stack_steps;
      first [apply same_stack__createDirectory|apply same_stack_authenticate]. }
  destruct (Hrest w1) as [_ [later Hlater]].
  exists later. by rewrite Hlater, Hmkdir, <- app_assoc.
Qed.

Lemma createDirectory_first_request (fuel : nat) (dirName : string) (w w' : World)
    (d : option string) :
  Api.createDirectory fuel dirName w = (Ok d, w') ->
  exists later,
    trace w' = trace w ++ ReqMkdir (tokens_auth w) (working_folder w) dirName :: later.
Proof.
  intros Hrun. unfold Api.createDirectory in Hrun. apply try_catch_raise_Ok_inv in Hrun.
  unfold Supervisor.retryLimited in Hrun.
  apply bind_Ok_inv in Hrun as ([[ok d'] k] & w1 & Hcall & Hrun).
  destruct ok; [|done]. injection Hrun as _ <-.
  change (10 + 2)%nat with (S 11) in Hcall. rewrite callAbstracted_unfold in Hcall.
  change (10 <? 0)%nat with false in Hcall. cbv iota in Hcall.
  apply bind_Ok_inv in Hcall as (attempt & w0 & Hattempt & Hcall).
  injection Hattempt as <- <-. destruct (g_attempt w) as [v|]; [|done].
  apply bind_Ok_inv in Hcall as (r & w2 & Hop & Hcall).
  destruct fuel as [|fuel]; [done|].
  destruct (_createDirectory_first_request fuel dirName w) as [first Hfirst].
  rewrite Hop in Hfirst. cbn [snd] in Hfirst.
  assert (Hrest : follows same_stack
                    (ok <- read_success r ;;
                     if negb ok
                     then Supervisor.callAbstracted 10
                            (Api._createDirectory (S fuel) dirName) 11 1
                     else ret (true, read_data r, 1%nat))).
  { use @follows_bind.
    - destruct r as [s d0|[v0|]]; same_stack_steps.
    - intros ok. destruct ok; cbn [negb]; [same_stack_steps|].
      use @follows_callAbstracted. apply same_stack__createDirectory. }
  destruct (Hrest w2) as [_ [later Hlater]].
  rewrite Hcall in Hlater. cbn [snd] in Hlater.
  exists (first ++ later). by rewrite Hlater, Hfirst, <- app_assoc.
Qed.

#[global] Instance log_grown_preorder : PreOrder log_grown.
Proof.
  split.
  - intros w. unfold log_grown. reflexivity.
  - intros w1 w2 w3 H1 H2. unfold log_grown in *. by etrans.
Qed.

Lemma follows_log_grown {A} (m : M A) : follows same_stack m -> follows log_grown m.
Proof. intros Hm w. apply Hm. Qed.

Lemma log_grown_uploadFolder (readdirSync : string -> list string)
    (isDirectory : string -> bool) (fuel : nat) :
  forall (local : string) (parent : option string),
    follows log_grown (Shell.uploadFolder readdirSync isDirectory fuel local parent).
Proof.
  induction fuel as [|fuel IH]; intros local parent; cbn [Shell.uploadFolder].
  { use @follows_stop. }
  use @follows_bind.
  { intros w. destruct parent; cbn; unfold log_grown; by cbn. }
  intros _. use @follows_bind.
  { generalize (List.filter (fun entry => isDirectory (local +:+ "/" +:+ entry))
                            (readdirSync local)).
    intros folderList. induction folderList as [|folder folderList IHl];
      cbn [Shell.createFolders].
    - use @follows_ret.
    - use @follows_bind; [apply follows_log_grown, same_stack_createDirectory|].
      intros directoryID. use @follows_bind; [exact IHl|].
      intros ids. use @follows_ret. }
  intros idList. use @follows_bind.
  { apply follows_log_grown, same_stack_upload_files. }
  intros _. use @follows_for_of. intros child.
  use @follows_bind; [apply IH|]. intros _.
  use @follows_bind; [|intros popped; use @follows_ret].
  intros w. rewrite enterParentDirectory_eq.
  destruct (0 <? length (pathStack w))%nat; unfold log_grown; by cbn.
Qed.

(** A recursive upload that completes leaves the path stack deeper than it
    found it: the id that [createDirectory] returned for the main folder
    stays on the stack, and the folder that was current before is entered
    again on top of it. The folders below are entered and left again in
    pairs. Started at the root, the working folder is afterwards the
    uploaded folder. The first request is the one that creates the folder,
    named after the last part of the source path, in the folder that was
    current. An upload completes only where the identifier [attempt] is
    bound. *)
Theorem recursive_upload_leaves_created_folder_on_stack :
  forall (readdirSync : string -> list string) (isDirectory : string -> bool)
         (basename : string -> string) (fuel : nat) (srcFolderPath : string)
         (w w' : World),
    Shell.recursiveUploadFolders readdirSync isDirectory basename fuel srcFolderPath w
    = (Ok tt, w') ->
    exists (mainFolderID : string) (w1 : World),
      Api.createDirectory fuel (basename srcFolderPath) w = (Ok (Some mainFolderID), w1) /\
      pathStack w' = pathStack w ++ mainFolderID :: option_list (last (pathStack w)) /\
      pathStack w' <> pathStack w /\
      is_Some (g_attempt w) /\
      (exists later,
          trace w' = trace w
                     ++ ReqMkdir (tokens_auth w) (working_folder w)
                          (basename srcFolderPath)
                     :: later).
Proof.
  intros readdirSync isDirectory basename fuel src w w' Hrun.
  unfold Shell.recursiveUploadFolders in Hrun.
  apply bind_Ok_inv in Hrun as (current & w0 & Hcur & Hrun).
  rewrite getCurrentFolder_eq in Hcur. injection Hcur as <- <-.
  apply bind_Ok_inv in Hrun as (mainFolderID & w1 & Hcreate & Hrun).
  destruct (createDirectory_first_request _ _ _ _ _ Hcreate) as [later1 Ht1].
  pose proof Hcreate as Hmain.
  apply createDirectory_Ok_inv in Hmain as [[main ->] Hs1].
  apply bind_Ok_inv in Hrun as ([] & w2 & Hup & Hlast).
  pose proof Hup as Hs2. apply uploadFolder_Ok_stack in Hs2.
  apply enterDirectory_Ok_inv in Hlast as [Ht3 Hs3].
  assert (Ht2 : trace w1 `prefix_of` trace w2).
  { pose proof (log_grown_uploadFolder readdirSync isDirectory fuel src (Some main) w1)
      as Hgrown.
    by rewrite Hup in Hgrown. }
  assert (Hstack : pathStack w'
                   = pathStack w ++ main :: option_list (last (pathStack w))).
  { rewrite Hs3, Hs2, Hs1. cbn [option_list]. rewrite <- app_assoc.
    by destruct (last (pathStack w)). }
  exists main, w1. split; [exact Hcreate|]. split; [exact Hstack|]. split; [|split].
  - rewrite Hstack. intros Heq. apply (f_equal length) in Heq.
    rewrite length_app in Heq. cbn [length] in Heq. lia.
  - destruct (g_attempt w) as [v|] eqn:Hg; [by exists v|].
    destruct (public_operations_need_attempt fuel w (basename src) ""
                (fun _ => ret tt) Hg) as (_ & Hthrow & _).
    by rewrite Hthrow in Hcreate.
  - destruct Ht2 as [later2 Ht2].
    exists (later1 ++ later2). by rewrite Ht3, Ht2, Ht1, <- app_assoc.
Qed.

Lemma recursive_upload_leaves_created_folder_on_stack_witness :
  let w := small_tree_world in
  let w' := snd (Shell.recursiveUploadFolders small_tree_entries small_tree_is_directory
                   Primitives.last_segment 3 "/home/u/A" w) in
  pathStack w = ["P"] /\
  pathStack w' = ["P"; "idA"; "P"] /\
  fst (Api.createDirectory 3 "A" w) = Ok (Some "idA").
Proof.
  intros w w'.
  assert (Hrun : Shell.recursiveUploadFolders small_tree_entries small_tree_is_directory
                   Primitives.last_segment 3 "/home/u/A" w
                 = (Ok tt, w')) by (vm_compute; reflexivity).
  destruct (recursive_upload_leaves_created_folder_on_stack small_tree_entries
              small_tree_is_directory Primitives.last_segment 3 "/home/u/A" w w' Hrun)
    as (main & w1 & Hcreate & Hstack & _).
  assert (Hid : fst (Api.createDirectory 3 (Primitives.last_segment "/home/u/A") w)
                = Ok (Some "idA")) by (vm_compute; reflexivity).
  rewrite Hcreate in Hid. injection Hid as ->.
  split; [reflexivity|]. split; [exact Hstack|].
  vm_compute. reflexivity.
Defined.
